(** * Skeincoin core: amount codec, coin entries, Merkle engine,
    proof-of-work gate and structural block validation (src/core.cpp)

    A shallow embedding of the consensus code of [core.cpp] together with
    the properties its specification states about it.  The first part of
    the file holds the embedding, component by component; the second part
    holds the lemmas about the specification's statements, the third part
    further properties of the code. *)

From Stdlib Require Import ZArith Lia Bool List String.
From stdpp Require Import base list gmap.
Import ListNotations.

Local Open Scope Z_scope.

(* ===================================================================== *)
(** * Part I: the embedding                                               *)
(* ===================================================================== *)

(* --------------------------------------------------------------------- *)
(** ** Unsigned machine arithmetic                                        *)
(* --------------------------------------------------------------------- *)

(** [uint64] values are integers in [0, 2^64); every arithmetic operation
    of the source is reduced modulo [2^64], as C++ does for unsigned
    types.  To be able to speak about overflow, a computation also carries
    a flag which stays [true] as long as no operation had to wrap. *)

Definition two64 : Z := 2 ^ 64.

Definition wrap64 (z : Z) : Z := z mod two64.

Definition U64 (A : Type) : Type := (A * bool)%type.

Definition u64_ret {A} (a : A) : U64 A := (a, true).

Definition u64_bind {A B} (m : U64 A) (k : A -> U64 B) : U64 B :=
  let '(a, f) := m in let '(b, g) := k a in (b, f && g).

Notation "x <~ m ;; k" := (u64_bind m (fun x => k))
  (at level 100, m at next level, right associativity).

(** The result of one machine operation whose exact value is [z]. *)
Definition u64_op (z : Z) : U64 Z := (wrap64 z, wrap64 z =? z).

Definition add64 (a b : Z) : U64 Z := u64_op (a + b).
Definition sub64 (a b : Z) : U64 Z := u64_op (a - b).
Definition mul64 (a b : Z) : U64 Z := u64_op (a * b).

(** [unsigned int] arithmetic wraps modulo [2^32]. *)
Definition wrap32 (z : Z) : Z := z mod 2 ^ 32.

(* --------------------------------------------------------------------- *)
(** ** Amount codec: [CTxOutCompressor]                                   *)
(* --------------------------------------------------------------------- *)

(** The loop [while (((n % 10) == 0) && e < 9) { n /= 10; e++; }].  The
    counter [e] starts at 0 and the guard stops at 9, so nine rounds of
    fuel always reach the exit. *)
Fixpoint strip_zeros (fuel : nat) (n e : Z) : Z * Z :=
  match fuel with
  | O => (n, e)
  | S fuel' =>
      if (n mod 10 =? 0) && (e <? 9)
      then strip_zeros fuel' (n / 10) (e + 1)
      else (n, e)
  end.

(** [uint64 CTxOutCompressor::CompressAmount(uint64 n)] *)
Definition CompressAmount (n : Z) : U64 Z :=
  if n =? 0 then u64_ret 0
  else
    let '(n, e) := strip_zeros 9 n 0 in
    if e <? 9 then
      let d := n mod 10 in
      let n := n / 10 in
      t1 <~ mul64 n 9 ;;
      t2 <~ add64 t1 d ;;
      t3 <~ sub64 t2 1 ;;
      t4 <~ mul64 t3 10 ;;
      t5 <~ add64 1 t4 ;;
      add64 t5 e
    else
      t1 <~ sub64 n 1 ;;
      t2 <~ mul64 t1 10 ;;
      t3 <~ add64 1 t2 ;;
      add64 t3 9.

(** The value tested by [assert(d >= 1 && d <= 9)] in the branch [e < 9]. *)
Definition CompressAmount_assertion (n : Z) : bool :=
  let '(n, e) := strip_zeros 9 n 0 in
  if e <? 9 then (1 <=? n mod 10) && (n mod 10 <=? 9) else true.

(** The loop [while (e) { n *= 10; e--; }]. *)
Fixpoint scale_up (e : nat) (n : Z) : U64 Z :=
  match e with
  | O => u64_ret n
  | S e' => n' <~ mul64 n 10 ;; scale_up e' n'
  end.

(** [uint64 CTxOutCompressor::DecompressAmount(uint64 x)] *)
Definition DecompressAmount (x : Z) : U64 Z :=
  if x =? 0 then u64_ret 0
  else
    x <~ sub64 x 1 ;;
    let e := x mod 10 in
    let x := x / 10 in
    n <~ (if e <? 9 then
            let d := x mod 9 + 1 in
            let x := x / 9 in
            t <~ mul64 x 10 ;;
            add64 t d
          else add64 x 1) ;;
    scale_up (Z.to_nat e) n.

(** The code word of an amount stripped to [m] with exponent [e], in
    unbounded arithmetic, as the comment above [CompressAmount] gives it:
    [1 + 10*(9*n + d - 1) + e] for [e < 9], and [1 + 10*(n - 1) + 9]. *)
Definition code_word (m e : Z) : Z :=
  if e <? 9 then 1 + ((m / 10) * 9 + m mod 10 - 1) * 10 + e
  else 1 + (m - 1) * 10 + 9.

(** The largest amount whose ninefold still fits in 64 bits:
    [(2^64 - 1) / 9]. *)
Definition max_safe_amount : Z := 2049638230412172401.

(* --------------------------------------------------------------------- *)
(** ** Hashes, transactions, headers and blocks                           *)
(* --------------------------------------------------------------------- *)

(** A [uint256] is an unsigned 256-bit integer. *)
Abbreviation uint256 := Z.

(** [vector::operator[]] on a vector of hashes.  Reading outside the
    vector is undefined in C++; the embedding returns 0 there, and no
    lemma below relies on it. *)
Definition vec_at (v : list uint256) (k : Z) : uint256 :=
  nth (Z.to_nat k) v 0.

Section Blocks.

(** The transaction type and the serialisation hashes live in headers
    outside [core.cpp]; they are parameters of the development. *)
Variable CTransaction : Type.
Variable CAuxPow : Type.

(** [CTransaction::GetHash], i.e. [SerializeHash( *this )]. *)
Variable TxGetHash : CTransaction -> uint256.

(** [Hash(BEGIN(a), END(a), BEGIN(b), END(b))]: the hash of the
    concatenation of two 256-bit values. *)
Variable Hash : uint256 -> uint256 -> uint256.

Record CBlockHeader := mkHeader {
  nVersion : Z;
  hashPrevBlock : uint256;
  hashMerkleRoot : uint256;
  nTime : Z;
  nBits : Z;
  nNonce : Z;
  auxpow : option CAuxPow
}.

(** A block is its header, its transactions, and the [mutable] cache
    [vMerkleTree] which the [const] member functions update. *)
Record CBlock := mkBlock {
  header : CBlockHeader;
  vtx : list CTransaction;
  vMerkleTree : list uint256
}.

Definition set_vMerkleTree (b : CBlock) (t : list uint256) : CBlock :=
  {| header := header b; vtx := vtx b; vMerkleTree := t |}.

(* --------------------------------------------------------------------- *)
(** ** Merkle engine                                                      *)
(* --------------------------------------------------------------------- *)

(** The loop variables [nSize], [i], [i2], [j] and [nIndex] are C++
    [int]s.  They stay below the size of [vMerkleTree], less than twice
    the number of transactions plus the number of levels, and are
    embedded as unbounded integers: a block whose tree does not fit an
    [int] is outside the embedding.  Division by two is [Z.quot], which
    truncates as C++ does; [>>], [^] and [&] are [Z.shiftr], [Z.lxor] and
    [Z.land]. *)

(** [BOOST_FOREACH(const CTransaction& tx, vtx)
       vMerkleTree.push_back(tx.GetHash());] *)
Definition push_tx_hashes (txs : list CTransaction) : list uint256 :=
  fold_left (fun tree tx => tree ++ [TxGetHash tx]) txs [].

(** The inner loop [for (int i = 0; i < nSize; i += 2)] of
    [BuildMerkleTree], started at [i]. *)
Fixpoint merkle_row (fuel : nat) (tree : list uint256) (j nSize i : Z)
  : list uint256 :=
  match fuel with
  | O => tree
  | S fuel' =>
      if i <? nSize then
        let i2 := Z.min (i + 1) (nSize - 1) in
        merkle_row fuel'
          (tree ++ [Hash (vec_at tree (j + i)) (vec_at tree (j + i2))])
          j nSize (i + 2)
      else tree
  end.

(** The outer loop
    [for (int nSize = vtx.size(); nSize > 1; nSize = (nSize + 1) / 2)]. *)
Fixpoint merkle_levels (fuel : nat) (tree : list uint256) (j nSize : Z)
  : list uint256 :=
  match fuel with
  | O => tree
  | S fuel' =>
      if 1 <? nSize then
        merkle_levels fuel'
          (merkle_row (Z.to_nat nSize) tree j nSize 0)
          (j + nSize) (Z.quot (nSize + 1) 2)
      else tree
  end.

(** [uint256 CBlock::BuildMerkleTree() const]: the root, and the block
    with its refreshed cache.  An inner row of [nSize] entries ends within
    [nSize] rounds and the level sizes shrink strictly, so the fuel given
    here is never exhausted ([merkle_row_fuel], [merkle_levels_fuel]). *)
Definition BuildMerkleTree (b : CBlock) : uint256 * CBlock :=
  let tree0 := push_tx_hashes (vtx b) in
  let tree := merkle_levels (length (vtx b)) tree0 0
                (Z.of_nat (length (vtx b))) in
  (match tree with [] => 0 | _ => List.last tree 0 end,
   set_vMerkleTree b tree).

(** The cache of a block is coherent when it is empty (not built yet) or
    holds the tree of the current transactions. *)
Definition cache_coherent (b : CBlock) : Prop :=
  vMerkleTree b = [] \/ vMerkleTree b = vMerkleTree (snd (BuildMerkleTree b)).

(** The loop of [GetMerkleBranch]. *)
Fixpoint branch_loop (fuel : nat) (tree branch : list uint256)
  (j nSize nIndex : Z) : list uint256 :=
  match fuel with
  | O => branch
  | S fuel' =>
      if 1 <? nSize then
        let i := Z.min (Z.lxor nIndex 1) (nSize - 1) in
        branch_loop fuel' tree (branch ++ [vec_at tree (j + i)])
          (j + nSize) (Z.quot (nSize + 1) 2) (Z.shiftr nIndex 1)
      else branch
  end.

(** [std::vector<uint256> CBlock::GetMerkleBranch(int nIndex) const] *)
Definition GetMerkleBranch (b : CBlock) (nIndex : Z)
  : list uint256 * CBlock :=
  let b' := match vMerkleTree b with
            | [] => snd (BuildMerkleTree b)
            | _ => b
            end in
  (branch_loop (length (vtx b')) (vMerkleTree b') [] 0
     (Z.of_nat (length (vtx b'))) nIndex, b').

(** One round of the loop of [CheckMerkleBranch]. *)
Definition check_step (st : uint256 * Z) (otherside : uint256)
  : uint256 * Z :=
  let '(hash, nIndex) := st in
  (if negb (Z.land nIndex 1 =? 0)
   then Hash otherside hash
   else Hash hash otherside,
   Z.shiftr nIndex 1).

(** [uint256 CBlock::CheckMerkleBranch(uint256 hash,
       const std::vector<uint256>& vMerkleBranch, int nIndex)] *)
Definition CheckMerkleBranch (hash : uint256)
  (vMerkleBranch : list uint256) (nIndex : Z) : uint256 :=
  if nIndex =? -1 then 0
  else fst (fold_left check_step vMerkleBranch (hash, nIndex)).

(** *** The construction in the words of the specification *)

(** One level up: adjacent pairs are hashed together, and the last
    element of a level of odd size is hashed with itself. *)
Fixpoint pair_up (level : list uint256) : list uint256 :=
  match level with
  | [] => []
  | [a] => [Hash a a]
  | a :: b :: rest => Hash a b :: pair_up rest
  end.

(** The levels of the tree, bottom first: a level of at most one hash is
    the top; any other level is followed by the levels over its pairing. *)
Inductive levels_from : list uint256 -> list (list uint256) -> Prop :=
| levels_top level :
    (length level <= 1)%nat -> levels_from level [level]
| levels_up level above :
    (1 < length level)%nat ->
    levels_from (pair_up level) above ->
    levels_from level (level :: above).

(** *** The flat array as the loops lay it out *)

(** The array that the outer loop leaves behind when it is entered with a
    level of hashes at the end of the array: the level, then the levels
    above it. *)
Fixpoint tree_of (fuel : nat) (level : list uint256) : list uint256 :=
  match fuel with
  | O => level
  | S fuel' =>
      if 1 <? Z.of_nat (length level)
      then level ++ tree_of fuel' (pair_up level)
      else level
  end.

(** The first hash of the last level laid out by [tree_of]. *)
Fixpoint root_of (fuel : nat) (level : list uint256) : uint256 :=
  match fuel with
  | O => hd 0 level
  | S fuel' =>
      if 1 <? Z.of_nat (length level)
      then root_of fuel' (pair_up level)
      else hd 0 level
  end.

(* --------------------------------------------------------------------- *)
(** ** Proof-of-work verifier                                             *)
(* --------------------------------------------------------------------- *)

(** [error(msg)] writes [msg] to the log and evaluates to [false].  A
    check is modelled by its verdict together with the messages it
    logged, oldest first. *)
Definition Logged (A : Type) : Type := (A * list string)%type.

Definition error (msg : string) : Logged bool := (false, [msg]).

(** [return error(msg)] after a sub-check that has logged on its own. *)
Definition error_after (sub : Logged bool) (msg : string) : Logged bool :=
  (false, snd sub ++ [msg]).

(** Network parameters and the big-number helpers of [bignum.h],
    [chainparams.h] and [core.h], none of which is part of [core.cpp]. *)
Variable TestNet : bool.
(** [CBigNum::SetCompact]: the target encoded by the compact [nBits]. *)
Variable SetCompact : Z -> Z.
(** [Params().ProofOfWorkLimit()] *)
Variable ProofOfWorkLimit : Z.
(** [CBigNum::getuint256] *)
Variable getuint256 : Z -> uint256.
(** [HashSkein(BEGIN(nVersion), END(nNonce))]: the hash of the six
    fixed-size header fields. *)
Variable HashSkein : Z -> uint256 -> uint256 -> Z -> Z -> Z -> uint256.
(** The chain identity carried by a version number ([GetChainID] reads it
    from [nVersion]) and this implementation's own one. *)
Variable ChainIDOfVersion : Z -> Z.
Variable GetOurChainID : Z.
(** [CAuxPow::Check] and [CAuxPow::GetParentBlockHash] of [auxpow.h]. *)
Variable AuxPowCheck : CAuxPow -> uint256 -> Z -> bool.
Variable GetParentBlockHash : CAuxPow -> uint256.

Definition INT_MAX : Z := 2 ^ 31 - 1.

(** [int GetAuxPowStartBlock()] *)
Definition GetAuxPowStartBlock : Z :=
  if TestNet then 0 else 1000000.

(** [bool CheckProofOfWork(uint256 hash, unsigned int nBits)] *)
Definition CheckProofOfWork (hash : uint256) (nBits : Z) : Logged bool :=
  let bnTarget := SetCompact nBits in
  if (bnTarget <=? 0) || (ProofOfWorkLimit <? bnTarget) then
    error "CheckProofOfWork() : nBits below minimum work"
  else if getuint256 bnTarget <? hash then
    error "CheckProofOfWork() : hash doesn't match nBits"
  else (true, []).

(** [uint256 CBlockHeader::GetHash() const] *)
Definition GetHash (h : CBlockHeader) : uint256 :=
  HashSkein (nVersion h) (hashPrevBlock h) (hashMerkleRoot h)
    (nTime h) (nBits h) (nNonce h).

Definition GetChainID (h : CBlockHeader) : Z := ChainIDOfVersion (nVersion h).

(** [bool CBlockHeader::CheckProofOfWork(int nHeight) const] *)
Definition CBlockHeader_CheckProofOfWork (h : CBlockHeader) (nHeight : Z)
  : Logged bool :=
  if GetAuxPowStartBlock <=? nHeight then
    if negb TestNet && negb (nHeight =? INT_MAX)
       && negb (GetChainID h =? GetOurChainID) then
      error "CheckProofOfWork() : block does not have our chain ID"
    else
      match auxpow h with
      | Some pow =>
          if negb (AuxPowCheck pow (GetHash h) (GetChainID h)) then
            error "CheckProofOfWork() : AUX POW is not valid"
          else
            let r := CheckProofOfWork (GetParentBlockHash pow) (nBits h) in
            if negb (fst r) then
              error_after r "CheckProofOfWork() : AUX proof of work failed"
            else (true, snd r)
      | None =>
          let r := CheckProofOfWork (GetHash h) (nBits h) in
          if negb (fst r) then
            error_after r "CheckProofOfWork() : proof of work failed"
          else (true, snd r)
      end
  else
    match auxpow h with
    | Some _ =>
        error "CheckProofOfWork() : AUX POW is not allowed at this block"
    | None =>
        let r := CheckProofOfWork (GetHash h) (nBits h) in
        if negb (fst r) then
          error_after r "CheckProofOfWork() : proof of work failed"
        else (true, snd r)
    end.

(* --------------------------------------------------------------------- *)
(** ** Block structural validator                                         *)
(* --------------------------------------------------------------------- *)

(** The validation state of [main.h], the limits and the per-transaction
    collaborators are not part of [core.cpp]; they are parameters. *)
Variable CValidationState : Type.
(** The state left by [state.DoS(level, ret)], a call which evaluates to
    its second argument [ret]. *)
Variable DoS : Z -> CValidationState -> CValidationState.
Variable MAX_BLOCK_SIZE : Z.
Variable MAX_BLOCK_SIGOPS : Z.
(** [::GetSerializeSize( *this, SER_NETWORK, PROTOCOL_VERSION)] *)
Variable GetSerializeSize : CBlock -> Z.
Variable GetAdjustedTime : Z.
Variable IsCoinBase : CTransaction -> bool.
Variable CheckTransaction :
  CTransaction -> CValidationState -> bool * CValidationState.
Variable GetLegacySigOpCount : CTransaction -> Z.

(** What a call of [CheckBlock] leaves behind: its verdict, the
    validation state, the messages passed to [error], and the block with
    its Merkle cache. *)
Record Outcome := mkOutcome {
  accepted : bool;
  state_after : CValidationState;
  logged : list string;
  block_after : CBlock
}.

(** [return state.DoS(level, error(msg))] *)
Definition reject_DoS (level : Z) (state : CValidationState)
  (log : list string) (b : CBlock) : Outcome :=
  mkOutcome false (DoS level state) log b.

(** The log after a further call [error(msg)]. *)
Definition log_error (log : list string) (msg : string) : list string :=
  log ++ [msg].

(** [BOOST_FOREACH(const CTransaction& tx, vtx)
       if (!CheckTransaction(tx, state)) return ...]: whether all
    transactions passed, and the state after the last call made. *)
Fixpoint CheckTransactions (txs : list CTransaction)
  (state : CValidationState) : bool * CValidationState :=
  match txs with
  | [] => (true, state)
  | tx :: rest =>
      let '(ok, state') := CheckTransaction tx state in
      if ok then CheckTransactions rest state' else (false, state')
  end.

(** Modelled from the spec: [CBlock::GetTxHash] of [core.h], which is
    missing from the sources: the hash of transaction [nIndex], as cached
    by [BuildMerkleTree] in the first entries of [vMerkleTree]. *)
Definition GetTxHash (b : CBlock) (nIndex : nat) : uint256 :=
  vec_at (vMerkleTree b) (Z.of_nat nIndex).

(** [set<uint256> uniqueTx;
     for (unsigned int i = 0; i < vtx.size(); i++)
         uniqueTx.insert(GetTxHash(i));] *)
Definition uniqueTx (b : CBlock) : gset Z :=
  fold_left (fun set i => {[GetTxHash b i]} ∪ set)
    (seq 0 (length (vtx b))) ∅.

(** [unsigned int nSigOps = 0;
     BOOST_FOREACH(const CTransaction& tx, vtx)
         nSigOps += GetLegacySigOpCount(tx);] *)
Definition count_sigops (txs : list CTransaction) : Z :=
  fold_left (fun nSigOps tx => wrap32 (nSigOps + GetLegacySigOpCount tx))
    txs 0.

(** [bool CBlock::CheckBlock(int nHeight, CValidationState &state) const].
    [GetBlockTime()] is the header's [nTime]. *)
Definition CheckBlock (b : CBlock) (nHeight : Z) (state : CValidationState)
  : Outcome :=
  let nTx := Z.of_nat (length (vtx b)) in
  if (nTx =? 0) || (MAX_BLOCK_SIZE <? nTx)
     || (MAX_BLOCK_SIZE <? GetSerializeSize b) then
    reject_DoS 100 state (log_error [] "CheckBlock() : size limits failed") b
  else
    let pow := CheckProofOfWork (GetHash (header b)) (nBits (header b)) in
    if negb (fst pow) then
      reject_DoS 50 state
        (log_error (snd pow) "CheckBlock() : proof of work failed") b
    else if GetAdjustedTime + 2 * 60 * 60 <? nTime (header b) then
      mkOutcome false state
        (log_error (snd pow)
           "CheckBlock() : block timestamp too far in the future") b
    else if match vtx b with
            | [] => true
            | tx0 :: _ => negb (IsCoinBase tx0)
            end then
      reject_DoS 100 state
        (log_error (snd pow) "CheckBlock() : first tx is not coinbase") b
    else if existsb IsCoinBase (drop 1 (vtx b)) then
      reject_DoS 100 state
        (log_error (snd pow) "CheckBlock() : more than one coinbase") b
    else
      let '(ok, state) := CheckTransactions (vtx b) state in
      if negb ok then
        mkOutcome false state
          (log_error (snd pow) "CheckBlock() : CheckTransaction failed") b
      else
        let b := snd (BuildMerkleTree b) in
        if negb (Z.of_nat (size (uniqueTx b)) =? Z.of_nat (length (vtx b)))
        then
          reject_DoS 100 state
            (log_error (snd pow) "CheckBlock() : duplicate transaction") b
        else if MAX_BLOCK_SIGOPS <? count_sigops (vtx b) then
          reject_DoS 100 state
            (log_error (snd pow) "CheckBlock() : out-of-bounds SigOpCount") b
        else
          let '(root, b) := BuildMerkleTree b in
          if negb (hashMerkleRoot (header b) =? root) then
            reject_DoS 100 state
              (log_error (snd pow) "CheckBlock() : hashMerkleRoot mismatch") b
          else mkOutcome true state (snd pow) b.

End Blocks.

Arguments mkHeader {_} _ _ _ _ _ _ _.
Arguments nVersion {_} _.
Arguments hashPrevBlock {_} _.
Arguments hashMerkleRoot {_} _.
Arguments nTime {_} _.
Arguments nBits {_} _.
Arguments nNonce {_} _.
Arguments auxpow {_} _.
Arguments mkBlock {_ _} _ _ _.
Arguments header {_ _} _.
Arguments vtx {_ _} _.
Arguments vMerkleTree {_ _} _.
Arguments set_vMerkleTree {_ _} _ _.
Arguments push_tx_hashes {_} _ _.
Arguments BuildMerkleTree {_ _} _ _ _.
Arguments cache_coherent {_ _} _ _ _.
Arguments mkOutcome {_ _ _} _ _ _ _.
Arguments accepted {_ _ _} _.
Arguments state_after {_ _ _} _.
Arguments logged {_ _ _} _.
Arguments block_after {_ _ _} _.
Arguments reject_DoS {_ _ _} _ _ _ _ _.
Arguments CheckTransactions {_ _} _ _ _.
Arguments GetTxHash {_ _} _ _.
Arguments uniqueTx {_ _} _.
Arguments count_sigops {_} _ _.
Arguments CheckBlock {_ _} _ _ _ _ _ _ {_} _ _ _ _ _ _ _ _ _ _ _.
Arguments GetMerkleBranch {_ _} _ _ _ _.

(* --------------------------------------------------------------------- *)
(** ** Coin entry model: [CCoins]                                         *)
(* --------------------------------------------------------------------- *)

Record CTxOut := mkTxOut {
  nValue : Z;
  scriptPubKey : list Byte.byte
}.

(** An outpoint; the index [n] is an [unsigned int] that the code only
    compares with a vector size and uses as a position. *)
Module COutPoint.
Record t := mk { hash : uint256; n : nat }.
End COutPoint.
Abbreviation COutPoint := COutPoint.t.

Module CTxInUndo.
Record t := mk {
  txout : CTxOut;
  fCoinBase : bool;
  nHeight : Z;
  nVersion : Z
}.
End CTxInUndo.
Abbreviation CTxInUndo := CTxInUndo.t.

Module CCoins.
Record t := mk {
  fCoinBase : bool;
  vout : list CTxOut;
  nHeight : Z;
  nVersion : Z
}.
Definition set_vout (c : t) (v : list CTxOut) : t :=
  {| fCoinBase := fCoinBase c; vout := v;
     nHeight := nHeight c; nVersion := nVersion c |}.
End CCoins.
Abbreviation CCoins := CCoins.t.

Section CoinEntry.

(** [CTxOut::IsNull] and [CTxOut::SetNull] are defined in [core.h], which
    is not part of the sources; they are parameters here. *)
Variable IsNull : CTxOut -> bool.
Variable SetNull : CTxOut -> CTxOut.

(** Modelled from the spec: the constructor [CTxInUndo(txout)] of
    [core.h], which is missing from the sources.  The undo record is a
    snapshot of one output; the entry's version, coinbase flag and height
    are filled in only by a spend that empties the entry, and are blank
    otherwise. *)
Definition CTxInUndo_of (o : CTxOut) : CTxInUndo :=
  CTxInUndo.mk o false 0 0.

(** Modelled from the spec: the vector left by [CCoins::Cleanup] of
    [core.h], which is missing from the sources: trailing null outputs
    are trimmed, so that a vector of null outputs only becomes empty. *)
Fixpoint trim_nulls (vout : list CTxOut) : list CTxOut :=
  match vout with
  | [] => []
  | o :: rest =>
      match trim_nulls rest with
      | [] => if IsNull o then [] else [o]
      | rest' => o :: rest'
      end
  end.

Definition Cleanup (c : CCoins) : CCoins :=
  CCoins.set_vout c (trim_nulls (CCoins.vout c)).

(** [bool CCoins::Spend(const COutPoint &out, CTxInUndo &undo)]: the
    verdict, the entry and the undo record after the call. *)
Definition Spend (c : CCoins) (out : COutPoint) (undo : CTxInUndo)
  : bool * CCoins * CTxInUndo :=
  if (length (CCoins.vout c) <=? COutPoint.n out)%nat then (false, c, undo)
  else
    match CCoins.vout c !! COutPoint.n out with
    | None => (false, c, undo)
    | Some o =>
        if IsNull o then (false, c, undo)
        else
          let undo := CTxInUndo_of o in
          let c' := CCoins.set_vout c
                      (<[COutPoint.n out := SetNull o]> (CCoins.vout c)) in
          let c' := Cleanup c' in
          let undo :=
            if (length (CCoins.vout c') =? 0)%nat then
              CTxInUndo.mk (CTxInUndo.txout undo) (CCoins.fCoinBase c')
                (CCoins.nHeight c') (CCoins.nVersion c')
            else undo in
          (true, c', undo)
    end.

(** The position [2+b*8+i], computed in [unsigned int]. *)
Definition mask_slot (b i : Z) : Z :=
  wrap32 (wrap32 (2 + wrap32 (b * 8)) + i).

(** The inner loop
    [for (unsigned int i = 0; i < 8 && 2+b*8+i < vout.size(); i++)]
    of [CalcMaskSize], carrying [fZero]. *)
Fixpoint mask_group (fuel : nat) (vout : list CTxOut) (b i : Z)
  (fZero : bool) : bool :=
  match fuel with
  | O => fZero
  | S fuel' =>
      if (i <? 8) && (mask_slot b i <? Z.of_nat (length vout)) then
        let fZero' :=
          match vout !! Z.to_nat (mask_slot b i) with
          | Some o => if negb (IsNull o) then false else fZero
          | None => fZero
          end in
        mask_group fuel' vout b (wrap32 (i + 1)) fZero'
      else fZero
  end.

(** The outer loop [for (unsigned int b = 0; 2+b*8 < vout.size(); b++)],
    carrying [nLastUsedByte] and [nNonzeroBytes]. *)
Fixpoint mask_bytes (fuel : nat) (vout : list CTxOut)
  (b nLastUsedByte nNonzeroBytes : Z) : Z * Z :=
  match fuel with
  | O => (nLastUsedByte, nNonzeroBytes)
  | S fuel' =>
      if mask_slot b 0 <? Z.of_nat (length vout) then
        let fZero := mask_group 8 vout b 0 true in
        if negb fZero then
          mask_bytes fuel' vout (wrap32 (b + 1))
            (wrap32 (b + 1)) (wrap32 (nNonzeroBytes + 1))
        else
          mask_bytes fuel' vout (wrap32 (b + 1)) nLastUsedByte nNonzeroBytes
      else (nLastUsedByte, nNonzeroBytes)
  end.

(** [void CCoins::CalcMaskSize(unsigned int &nBytes,
       unsigned int &nNonzeroBytes) const]: the two referenced counters
    after the call.  Every round of the outer loop moves on by eight
    outputs, so [vout.size()] rounds of fuel are never used up. *)
Definition CalcMaskSize (c : CCoins) (nBytes nNonzeroBytes : Z) : Z * Z :=
  let '(nLastUsedByte, nNonzeroBytes) :=
    mask_bytes (length (CCoins.vout c)) (CCoins.vout c) 0 0 nNonzeroBytes in
  (wrap32 (nBytes + nLastUsedByte), nNonzeroBytes).

(** *** The bitmask in the words of the specification *)

(** Byte [b] of the bitmask covers the outputs [2+8b .. 2+8b+7]; it is
    used when one of those that exist is not null. *)
Definition byte_used (vout : list CTxOut) (b : nat) : bool :=
  existsb (fun o => negb (IsNull o)) (take 8 (drop (2 + 8 * b) vout)).

(** The used bytes in increasing order; a byte with an index of
    [length vout] or more covers no output at all. *)
Definition used_bytes (vout : list CTxOut) : list nat :=
  List.filter (byte_used vout) (seq 0 (length vout)).

Definition byteCount (vout : list CTxOut) : nat :=
  match last (used_bytes vout) with
  | Some b => S b
  | None => O
  end.

Definition nonZeroByteCount (vout : list CTxOut) : nat :=
  length (used_bytes vout).

End CoinEntry.

(* --------------------------------------------------------------------- *)
(** ** Transaction inputs: [CTransaction::IsNewerThan]                    *)
(* --------------------------------------------------------------------- *)

(** The largest [unsigned int],
    [std::numeric_limits<unsigned int>::max()]. *)
Definition UINT_MAX : Z := 2 ^ 32 - 1.

Record CTxIn := mkTxIn {
  prevout : COutPoint;
  scriptSig : list Byte.byte;
  nSequence : Z
}.

(** Modelled from the spec: [operator!=] on [COutPoint] of [core.h],
    which is missing from the sources: equality of outpoints is
    structural. *)
Definition outpoint_neq (a b : COutPoint) : bool :=
  negb ((COutPoint.hash a =? COutPoint.hash b)
        && (COutPoint.n a =? COutPoint.n b)%nat).

(** The loop [for (unsigned int i = 0; i < vin.size(); i++)
       if (vin[i].prevout != old.vin[i].prevout) return false;]:
    whether it returns. *)
Fixpoint prevouts_differ (fuel : nat) (vin old_vin : list CTxIn) (i : nat)
  : bool :=
  match fuel with
  | O => false
  | S fuel' =>
      if (i <? length vin)%nat then
        match vin !! i, old_vin !! i with
        | Some a, Some b =>
            if outpoint_neq (prevout a) (prevout b) then true
            else prevouts_differ fuel' vin old_vin (S i)
        | _, _ => false
        end
      else false
  end.

(** The second loop of [IsNewerThan], carrying [fNewer] and [nLowest]. *)
Fixpoint newer_scan (fuel : nat) (vin old_vin : list CTxIn) (i : nat)
  (fNewer : bool) (nLowest : Z) : bool :=
  match fuel with
  | O => fNewer
  | S fuel' =>
      if (i <? length vin)%nat then
        match vin !! i, old_vin !! i with
        | Some a, Some b =>
            if negb (nSequence a =? nSequence b) then
              let '(fNewer, nLowest) :=
                if nSequence a <=? nLowest then (false, nSequence a)
                else (fNewer, nLowest) in
              let '(fNewer, nLowest) :=
                if nSequence b <? nLowest then (true, nSequence b)
                else (fNewer, nLowest) in
              newer_scan fuel' vin old_vin (S i) fNewer nLowest
            else newer_scan fuel' vin old_vin (S i) fNewer nLowest
        | _, _ => fNewer
        end
      else fNewer
  end.

(** [bool CTransaction::IsNewerThan(const CTransaction& old) const], as
    a function of the input vectors [vin] and [old.vin], the only members
    it reads.  Both loops run over the positions of [vin], so
    [vin.size()] rounds of fuel reach their exits. *)
Definition IsNewerThan (vin old_vin : list CTxIn) : bool :=
  if negb (length vin =? length old_vin)%nat then false
  else if prevouts_differ (length vin) vin old_vin 0 then false
  else newer_scan (length vin) vin old_vin 0 false UINT_MAX.

(** The body of the second loop for one pair of inputs, as a function on
    [(fNewer, nLowest)]. *)
Definition newer_step (st : bool * Z) (p : CTxIn * CTxIn) : bool * Z :=
  let '(fNewer, nLowest) := st in
  let '(a, b) := p in
  if negb (nSequence a =? nSequence b) then
    let '(fNewer, nLowest) :=
      if nSequence a <=? nLowest then (false, nSequence a)
      else (fNewer, nLowest) in
    if nSequence b <? nLowest then (true, nSequence b)
    else (fNewer, nLowest)
  else (fNewer, nLowest).

(** Two inputs at one position whose sequence numbers differ. *)
Definition seq_differs (ps : list (CTxIn * CTxIn)) (a b : CTxIn) : Prop :=
  (a, b) ∈ ps /\ nSequence a <> nSequence b.

(** What the scan knows after the pairs [ps]: [nLowest] is a lower bound
    of the sequence numbers that differ; [fNewer] is set when the bound
    is an old number below every new one, and is clear when nothing
    differed yet or the bound is a new number. *)
Definition scan_inv (ps : list (CTxIn * CTxIn)) (fNewer : bool) (nLowest : Z)
  : Prop :=
  (forall a b, seq_differs ps a b ->
     nLowest <= nSequence a /\ nLowest <= nSequence b) /\
  (fNewer = true ->
     (exists a b, seq_differs ps a b /\ nSequence b = nLowest) /\
     forall a b, seq_differs ps a b -> nLowest < nSequence a) /\
  (fNewer = false ->
     (nLowest = UINT_MAX /\ forall a b, ~ seq_differs ps a b) \/
     exists a b, seq_differs ps a b /\ nSequence a = nLowest).

(* --------------------------------------------------------------------- *)
(** ** Further members of [CCoins] and [CBlockHeader]                     *)
(* --------------------------------------------------------------------- *)

Section CoinEntryPosition.

Variable IsNull : CTxOut -> bool.
Variable SetNull : CTxOut -> CTxOut.

(** [bool CCoins::Spend(int nPos)]: the verdict and the entry after the
    call.  The position is converted to the [unsigned int] index of an
    outpoint; the local undo record, here [undo], is discarded. *)
Definition Spend_at (c : CCoins) (nPos : Z) (undo : CTxInUndo)
  : bool * CCoins :=
  let out := COutPoint.mk 0 (Z.to_nat (wrap32 nPos)) in
  fst (Spend IsNull SetNull c out undo).

End CoinEntryPosition.

Section AuxPowFlag.

Variable CAuxPow : Type.
(** The version bit [BLOCK_VERSION_AUXPOW] of [core.h], which is not part
    of the sources. *)
Variable BLOCK_VERSION_AUXPOW : Z.

(** [void CBlockHeader::SetAuxPow(CAuxPow* pow)]: [|=], [&=] and [~] on
    the [int] version are [Z.lor], [Z.land] and [Z.lnot], which agree
    with two's complement. *)
Definition SetAuxPow (h : CBlockHeader CAuxPow) (pow : option CAuxPow)
  : CBlockHeader CAuxPow :=
  let v := match pow with
           | Some _ => Z.lor (nVersion h) BLOCK_VERSION_AUXPOW
           | None => Z.land (nVersion h) (Z.lnot BLOCK_VERSION_AUXPOW)
           end in
  mkHeader v (hashPrevBlock h) (hashMerkleRoot h) (nTime h) (nBits h)
    (nNonce h) pow.

End AuxPowFlag.

Arguments SetAuxPow {_} _ _ _.

(* --------------------------------------------------------------------- *)
(** ** Concrete instances used to exercise the lemmas                     *)
(* --------------------------------------------------------------------- *)

Definition demo_hash (a b : uint256) : uint256 := (a * 31 + b + 7) mod 2 ^ 256.

Definition demo_block : CBlock Z unit :=
  mkBlock (mkHeader 1 0 0 0 0 0 None) [11; 22; 33] [].


(** A toy network: compact targets decode to themselves, every header
    hashes to 5, the chain identity sits above bit 16 of the version, our
    own identity is 1, and an auxiliary record is a pair of the chain
    identity it vouches for and the hash of its parent block. *)
Definition demo_SetCompact (nBits : Z) : Z := nBits.
Definition demo_limit : Z := 2 ^ 224.
Definition demo_getuint256 (t : Z) : uint256 := t mod 2 ^ 256.
Definition demo_HashSkein (v : Z) (p m : uint256) (t b n : Z) : uint256 := 5.
Definition demo_chain_id (v : Z) : Z := v / 65536.
Definition demo_our_chain : Z := 1.
Definition demo_aux_check (pow : Z * uint256) (hash : uint256) (id : Z) : bool :=
  id =? fst pow.
Definition demo_parent_hash (pow : Z * uint256) : uint256 := snd pow.

Definition demo_header_check (testnet : bool) :=
  CBlockHeader_CheckProofOfWork (Z * uint256) testnet demo_SetCompact
    demo_limit demo_getuint256 demo_HashSkein demo_chain_id demo_our_chain
    demo_aux_check demo_parent_hash.

(** Headers of chain 5 (foreign) and of chain 1 (ours), bare or with an
    auxiliary record whose parent hash 7 meets the target 1000. *)
Definition foreign_header : CBlockHeader (Z * uint256) :=
  mkHeader (5 * 65536 + 1) 0 0 0 1000 0 None.
Definition foreign_aux_header : CBlockHeader (Z * uint256) :=
  mkHeader (5 * 65536 + 1) 0 0 0 1000 0 (Some (5, 7)).
Definition own_aux_header : CBlockHeader (Z * uint256) :=
  mkHeader (1 * 65536 + 1) 0 0 0 1000 0 (Some (1, 7)).

(** A toy validator: a transaction is its hash paired with its coinbase
    flag, the validation state is the accumulated penalty, and every
    transaction passes its own checks. *)
Definition demo_tx_hash (tx : Z * bool) : uint256 := fst tx.
Definition demo_is_coinbase (tx : Z * bool) : bool := snd tx.
Definition demo_DoS (level : Z) (state : Z) : Z := state + level.
Definition demo_serialize_size (b : CBlock (Z * bool) (Z * uint256)) : Z :=
  80 + 100 * Z.of_nat (length (vtx b)).
Definition demo_check_tx (tx : Z * bool) (state : Z) : bool * Z := (true, state).
Definition demo_sigops (tx : Z * bool) : Z := 1.

Definition demo_check_block :=
  CheckBlock demo_tx_hash demo_hash demo_SetCompact demo_limit
    demo_getuint256 demo_HashSkein demo_DoS 1000000 20000
    demo_serialize_size 1000 demo_is_coinbase demo_check_tx demo_sigops.

Definition demo_root (txs : list (Z * bool)) : uint256 :=
  fst (BuildMerkleTree demo_tx_hash demo_hash
         (mkBlock (mkHeader (CAuxPow := Z * uint256) 1 0 0 0 0 0 None) txs [])).

(** A coinbase and two plain transactions; the list with the last one
    repeated has the same Merkle root as the list without. *)
Definition tx_A : Z * bool := (11, true).
Definition tx_B : Z * bool := (22, false).
Definition tx_C : Z * bool := (33, false).

(** The repeated list under its (shared) root, with a good target. *)
Definition dup_block : CBlock (Z * bool) (Z * uint256) :=
  mkBlock (mkHeader 1 0 (demo_root [tx_A; tx_B; tx_C]) 900 1000 0 None)
    [tx_A; tx_B; tx_C; tx_C] [].
(** The same with a target of zero, which no hash meets. *)
Definition dup_block_bad_pow : CBlock (Z * bool) (Z * uint256) :=
  mkBlock (mkHeader 1 0 (demo_root [tx_A; tx_B; tx_C]) 900 0 0 None)
    [tx_A; tx_B; tx_C; tx_C] [].
(** The same with a timestamp more than two hours ahead of the clock. *)
Definition dup_block_late : CBlock (Z * bool) (Z * uint256) :=
  mkBlock (mkHeader 1 0 (demo_root [tx_A; tx_B; tx_C]) 9000 1000 0 None)
    [tx_A; tx_B; tx_C; tx_C] [].

(** Toy outputs: the null output has the value -1 and no script. *)
Definition demo_IsNull (o : CTxOut) : bool := nValue o =? -1.
Definition demo_SetNull (o : CTxOut) : CTxOut := mkTxOut (-1) [].
Definition null_out : CTxOut := mkTxOut (-1) [].
Definition live_out (v : Z) : CTxOut := mkTxOut v [Byte.x51].
Definition blank_undo : CTxInUndo := CTxInUndo.mk null_out false 0 0.

(** A coinbase entry of version 2 created at height 120 whose output 0
    is spent and whose output 1 is live. *)
Definition demo_coins : CCoins :=
  CCoins.mk true [null_out; live_out 50] 120 2.

(** An entry of twelve outputs of which only output 10 is live: byte 0 of
    the bitmask (outputs 2 to 9) is unused, byte 1 (outputs 10, 11) is
    used. *)
Definition demo_mask_coins : CCoins :=
  CCoins.mk false (replicate 10 null_out ++ [live_out 7; null_out]) 5 1.

(** Two versions of a transaction with two inputs: the replacement
    raises the sequence number of the first input from 3 to 5. *)
Definition demo_vin_old : list CTxIn :=
  [mkTxIn (COutPoint.mk 7 0) [] 3; mkTxIn (COutPoint.mk 8 1) [] 9].
Definition demo_vin_new : list CTxIn :=
  [mkTxIn (COutPoint.mk 7 0) [] 5; mkTxIn (COutPoint.mk 8 1) [] 9].

(** An entry with live outputs 0 and 2 around a spent output 1. *)
Definition demo_coins_two : CCoins :=
  CCoins.mk false [live_out 10; null_out; live_out 30] 7 1.

(** The odd list of three transactions under its root. *)
Definition odd_block : CBlock (Z * bool) (Z * uint256) :=
  mkBlock (mkHeader 1 0 (demo_root [tx_A; tx_B; tx_C]) 900 1000 0 None)
    [tx_A; tx_B; tx_C] [].

(* ===================================================================== *)
(** * Part II: properties                                                 *)
(* ===================================================================== *)

(* --------------------------------------------------------------------- *)
(** ** Amount codec                                                       *)
(* --------------------------------------------------------------------- *)

Lemma u64_op_exact z : 0 <= z < two64 -> u64_op z = (z, true).
Proof.
  intros Hz. unfold u64_op, wrap64.
  rewrite Z.mod_small by exact Hz. now rewrite Z.eqb_refl.
Qed.

Lemma u64_op_flag z : snd (u64_op z) = true -> 0 <= z < two64.
Proof.
  unfold u64_op, wrap64, two64. simpl. intros H%Z.eqb_eq.
  rewrite <- H. apply Z.mod_pos_bound. lia.
Qed.

Lemma u64_bind_flag {A B} (m : U64 A) (k : A -> U64 B) :
  snd (u64_bind m k) = true -> snd m = true /\ snd (k (fst m)) = true.
Proof.
  unfold u64_bind. destruct m as [a f]. cbn [fst snd].
  destruct (k a) as [b g]. cbn [fst snd].
  intros H. apply andb_true_iff in H. exact H.
Qed.

Lemma u64_bind_exact {B} z (k : Z -> U64 B) :
  0 <= z < two64 -> u64_bind (u64_op z) k = k z.
Proof.
  intros Hz. rewrite u64_op_exact by exact Hz.
  unfold u64_bind. now destruct (k z).
Qed.

Lemma strip_zeros_spec fuel : forall n e m e',
  0 < n -> 0 <= e <= 9 -> 9 <= e + Z.of_nat fuel ->
  strip_zeros fuel n e = (m, e') ->
  e <= e' <= 9 /\ 0 < m /\ n = m * 10 ^ (e' - e) /\ (e' < 9 -> m mod 10 <> 0).
Proof.
  induction fuel as [|fuel IH]; intros n e m e' Hn He Hfuel Hrun; simpl in Hrun.
  - injection Hrun as <- <-. replace (e - e) with 0 by lia.
    repeat split; lia.
  - destruct (n mod 10 =? 0) eqn:Hmod; simpl in Hrun.
    + destruct (e <? 9) eqn:Hlt.
      * apply Z.eqb_eq in Hmod. apply Z.ltb_lt in Hlt.
        assert (Hdiv : n = 10 * (n / 10)).
        { pose proof (Z.div_mod n 10). lia. }
        apply IH in Hrun; [|lia..].
        destruct Hrun as (Hb & Hm & Heq & Hlast).
        split; [lia|]. split; [lia|]. split; [|exact Hlast].
        replace (e' - e) with (Z.succ (e' - (e + 1))) by lia.
        rewrite Z.pow_succ_r by lia. lia.
      * injection Hrun as <- <-. apply Z.ltb_ge in Hlt.
        replace (e - e) with 0 by lia. repeat split; lia.
    + injection Hrun as <- <-. apply Z.eqb_neq in Hmod.
      replace (e - e) with 0 by lia. repeat split; lia.
Qed.

Lemma strip_zeros_9 x m e :
  0 < x -> strip_zeros 9 x 0 = (m, e) ->
  0 <= e <= 9 /\ 0 < m /\ x = m * 10 ^ e /\ (e < 9 -> m mod 10 <> 0).
Proof.
  intros Hx Hs.
  apply strip_zeros_spec in Hs; [|lia|lia|cbn; lia].
  now rewrite Z.sub_0_r in Hs.
Qed.

Lemma div_mod_lin q b r :
  0 <= r < b -> (q * b + r) / b = q /\ (q * b + r) mod b = r.
Proof.
  intros Hr. split.
  - rewrite Z.add_comm, Z.div_add by lia. rewrite Z.div_small by lia. lia.
  - rewrite Z.add_comm, Z.mod_add by lia. now apply Z.mod_small.
Qed.

Lemma scale_up_exact k : forall n,
  0 <= n -> n * 10 ^ Z.of_nat k < two64 ->
  scale_up k n = (n * 10 ^ Z.of_nat k, true).
Proof.
  induction k as [|k IH]; intros n Hn Hfit.
  - simpl. unfold u64_ret. f_equal. lia.
  - rewrite Nat2Z.inj_succ, Z.pow_succ_r in * by lia.
    assert (Hpow : 0 < 10 ^ Z.of_nat k) by (apply Z.pow_pos_nonneg; lia).
    cbn [scale_up]. unfold mul64.
    rewrite u64_bind_exact by nia.
    rewrite IH by nia. f_equal. lia.
Qed.

Ltac u64_run :=
  unfold add64, sub64, mul64;
  repeat (rewrite u64_bind_exact by (unfold two64 in *; lia));
  rewrite ?u64_op_exact by (unfold two64 in *; lia).

Ltac u64_flag H :=
  let Hb := fresh "Hb" in
  apply u64_bind_flag in H; destruct H as [Hb H];
  apply u64_op_flag in Hb;
  rewrite (u64_op_exact _ Hb) in H; cbn [fst] in H.

Lemma CompressAmount_fits x m e :
  0 < x -> strip_zeros 9 x 0 = (m, e) ->
  code_word m e < two64 -> CompressAmount x = (code_word m e, true).
Proof.
  intros Hx Hs Hfit. unfold CompressAmount.
  destruct (Z.eqb_spec x 0) as [->|_]; [lia|]. rewrite Hs.
  pose proof (strip_zeros_9 _ _ _ Hx Hs) as (He & Hm & _ & Hlast).
  unfold code_word in *. destruct (Z.ltb_spec e 9) as [Hlt|Hge].
  - pose proof (Z.mod_pos_bound m 10 ltac:(lia)).
    pose proof (Z.div_mod m 10 ltac:(lia)).
    specialize (Hlast Hlt). u64_run. reflexivity.
  - u64_run. reflexivity.
Qed.

Lemma CompressAmount_flag x m e :
  0 < x -> strip_zeros 9 x 0 = (m, e) ->
  snd (CompressAmount x) = true -> code_word m e < two64.
Proof.
  intros Hx Hs. unfold CompressAmount, code_word.
  destruct (Z.eqb_spec x 0) as [->|_]; [lia|]. rewrite Hs.
  destruct (Z.ltb_spec e 9) as [Hlt|Hge]; intros H;
    unfold add64, sub64, mul64 in H;
    repeat u64_flag H; apply u64_op_flag in H; unfold two64 in *; lia.
Qed.

Lemma code_word_bound x m e :
  0 < x -> strip_zeros 9 x 0 = (m, e) -> 0 < code_word m e <= 9 * x.
Proof.
  intros Hx Hs.
  pose proof (strip_zeros_9 _ _ _ Hx Hs) as (He & Hm & Heq & Hlast).
  unfold code_word.
  assert (Hpow : 0 < 10 ^ e) by (apply Z.pow_pos_nonneg; lia).
  destruct (Z.ltb_spec e 9) as [Hlt|Hge].
  - pose proof (Z.mod_pos_bound m 10 ltac:(lia)).
    pose proof (Z.div_mod m 10 ltac:(lia)).
    specialize (Hlast Hlt).
    destruct (Z.eq_dec e 0) as [->|Hne].
    + rewrite Z.pow_0_r in Heq. lia.
    + assert (10 ^ 1 <= 10 ^ e) by (apply Z.pow_le_mono_r; lia).
      rewrite Z.pow_1_r in *. nia.
  - assert (10 ^ 1 <= 10 ^ e) by (apply Z.pow_le_mono_r; lia).
    rewrite Z.pow_1_r in *. nia.
Qed.

Lemma DecompressAmount_code_word x m e :
  0 < x < two64 -> strip_zeros 9 x 0 = (m, e) ->
  code_word m e < two64 -> DecompressAmount (code_word m e) = (x, true).
Proof.
  intros Hx Hs Hfit.
  pose proof (code_word_bound _ _ _ (proj1 Hx) Hs) as Hpos.
  pose proof (strip_zeros_9 _ _ _ (proj1 Hx) Hs) as (He & Hm & Heq & Hlast).
  unfold DecompressAmount.
  destruct (Z.eqb_spec (code_word m e) 0) as [H0|_]; [lia|].
  unfold sub64 at 1. rewrite u64_bind_exact by (unfold two64 in *; lia).
  unfold code_word in *. destruct (Z.ltb_spec e 9) as [Hlt|Hge].
  - pose proof (Z.mod_pos_bound m 10 ltac:(lia)).
    pose proof (Z.div_mod m 10 ltac:(lia)).
    specialize (Hlast Hlt).
    replace (1 + (m / 10 * 9 + m mod 10 - 1) * 10 + e - 1)
      with ((m / 10 * 9 + (m mod 10 - 1)) * 10 + e) by lia.
    destruct (div_mod_lin (m / 10 * 9 + (m mod 10 - 1)) 10 e ltac:(lia))
      as [-> ->].
    destruct (div_mod_lin (m / 10) 9 (m mod 10 - 1) ltac:(lia)) as [-> ->].
    destruct (Z.ltb_spec e 9); [|lia].
    assert (Hmx : m <= x) by nia.
    u64_run. replace (m / 10 * 10 + (m mod 10 - 1 + 1)) with m by lia.
    rewrite scale_up_exact; rewrite ?Z2Nat.id; try lia.
    now rewrite Heq.
  - assert (e = 9) as -> by lia.
    replace (1 + (m - 1) * 10 + 9 - 1) with ((m - 1) * 10 + 9) by lia.
    destruct (div_mod_lin (m - 1) 10 9 ltac:(lia)) as [-> ->].
    cbn [Z.ltb Z.compare Pos.compare Pos.compare_cont].
    assert (Hmx : m <= x) by nia.
    u64_run. replace (m - 1 + 1) with m by lia.
    rewrite scale_up_exact; rewrite ?Z2Nat.id; try lia.
    now rewrite Heq.
Qed.

(** X20.  The assertion [d >= 1 && d <= 9] of [CompressAmount] never
    fires: it holds for every amount that reaches it. *)
Lemma CompressAmount_assertion_holds x :
  0 < x -> CompressAmount_assertion x = true.
Proof.
  intros Hx. unfold CompressAmount_assertion.
  destruct (strip_zeros 9 x 0) as [m e] eqn:Hs.
  pose proof (strip_zeros_9 _ _ _ Hx Hs) as (He & Hm & _ & Hlast).
  destruct (Z.ltb_spec e 9) as [Hlt|Hge]; [|reflexivity].
  pose proof (Z.mod_pos_bound m 10 ltac:(lia)).
  specialize (Hlast Hlt). apply andb_true_iff. split; apply Z.leb_le; lia.
Qed.

(** C1.  [CompressAmount 0] is [0]; for every 64-bit amount [x] whose
    compression does not wrap around (the amount is representable without
    loss), [DecompressAmount (CompressAmount x)] is [x] and decompression
    does not wrap either; and no amount up to [(2^64 - 1) / 9], which
    covers every monetary amount, makes the compression wrap. *)
Theorem amount_codec_round_trip :
  CompressAmount 0 = (0, true) /\
  (forall x, 0 <= x < two64 -> snd (CompressAmount x) = true ->
     DecompressAmount (fst (CompressAmount x)) = (x, true)) /\
  (forall x, 0 <= x <= max_safe_amount -> snd (CompressAmount x) = true).
Proof.
  split; [reflexivity|]. split.
  - intros x Hx Hflag.
    destruct (Z.eq_dec x 0) as [->|Hne]; [reflexivity|].
    destruct (strip_zeros 9 x 0) as [m e] eqn:Hs.
    assert (Hfit : code_word m e < two64).
    { apply (CompressAmount_flag x); [lia|exact Hs|exact Hflag]. }
    rewrite (CompressAmount_fits x m e) by (try lia; assumption).
    cbn [fst]. apply DecompressAmount_code_word; [lia|exact Hs|exact Hfit].
  - intros x Hx.
    destruct (Z.eq_dec x 0) as [->|Hne]; [reflexivity|].
    destruct (strip_zeros 9 x 0) as [m e] eqn:Hs.
    pose proof (code_word_bound x m e ltac:(lia) Hs) as Hb.
    rewrite (CompressAmount_fits x m e); [reflexivity|lia|exact Hs|].
    unfold max_safe_amount, two64 in *. lia.
Qed.

Lemma amount_codec_round_trip_witness :
  (0 <= 150000000 < two64 /\ snd (CompressAmount 150000000) = true /\
   0 <= 150000000 <= max_safe_amount) /\
  DecompressAmount (fst (CompressAmount 150000000)) = (150000000, true) /\
  snd (CompressAmount 150000000) = true.
Proof.
  split; [|split].
  - unfold two64, max_safe_amount. split; [lia|]. split; [reflexivity|lia].
  - apply (proj1 (proj2 amount_codec_round_trip)).
    + unfold two64. lia.
    + vm_compute. reflexivity.
  - apply (proj2 (proj2 amount_codec_round_trip)).
    unfold max_safe_amount. lia.
Defined.

(** Beyond that bound the encoding can wrap, and then the amount is not
    recovered: the largest 64-bit value is an instance. *)
Example CompressAmount_wraps :
  snd (CompressAmount (two64 - 1)) = false /\
  fst (DecompressAmount (fst (CompressAmount (two64 - 1)))) <> two64 - 1.
Proof. split; [vm_compute; reflexivity | vm_compute; discriminate]. Qed.

(* --------------------------------------------------------------------- *)
(** ** Merkle engine                                                      *)
(* --------------------------------------------------------------------- *)

Lemma list_pair_ind {A} (P : list A -> Prop) :
  P [] -> (forall a, P [a]) -> (forall a b l, P l -> P (a :: b :: l)) ->
  forall l, P l.
Proof.
  intros Hnil Hone Hstep l.
  enough (P l /\ forall a, P (a :: l)) as [H _] by exact H.
  induction l as [|x l [IH1 IH2]]; split; auto.
Qed.

Lemma vec_at_of_nat v k : vec_at v (Z.of_nat k) = nth k v 0.
Proof. unfold vec_at. now rewrite Nat2Z.id. Qed.

Lemma vec_at_middle pre x post :
  vec_at (pre ++ x :: post) (Z.of_nat (length pre)) = x.
Proof.
  rewrite vec_at_of_nat.
  rewrite List.app_nth2 by lia. now rewrite Nat.sub_diag.
Qed.

Section MerkleFacts.

Context {CTransaction CAuxPow : Type}.
Context (TxGetHash : CTransaction -> uint256).
Context (Hash : uint256 -> uint256 -> uint256).

Implicit Types (level tree pre : list uint256).

Lemma push_tx_hashes_map txs :
  push_tx_hashes TxGetHash txs = map TxGetHash txs.
Proof.
  unfold push_tx_hashes.
  enough (forall acc, fold_left (fun tree tx => tree ++ [TxGetHash tx]) txs acc
                      = acc ++ map TxGetHash txs) as H by apply (H []).
  induction txs as [|tx txs IH]; intros acc; simpl.
  - now rewrite List.app_nil_r.
  - rewrite IH, <- List.app_assoc. reflexivity.
Qed.

Lemma pair_up_length level :
  Z.of_nat (length (pair_up Hash level))
  = Z.quot (Z.of_nat (length level) + 1) 2.
Proof.
  induction level as [| a | a b l IH] using list_pair_ind; try reflexivity.
  cbn [pair_up length]. rewrite !Nat2Z.inj_succ, IH.
  rewrite !Z.quot_div_nonneg by lia.
  replace (Z.succ (Z.succ (Z.of_nat (length l))) + 1)
    with (Z.of_nat (length l) + 1 + 1 * 2) by lia.
  rewrite Z.div_add by lia. lia.
Qed.

Lemma pair_up_nth level : forall q,
  (2 * q < length level)%nat ->
  nth q (pair_up Hash level) 0
  = Hash (nth (2 * q) level 0)
         (nth (Nat.min (2 * q + 1) (length level - 1)) level 0).
Proof.
  induction level as [| a | a b l IH] using list_pair_ind; intros q Hq.
  - simpl in Hq. lia.
  - simpl in Hq. assert (q = 0)%nat as -> by lia. reflexivity.
  - destruct q as [|q].
    + reflexivity.
    + cbn [length] in Hq.
      replace (2 * S q)%nat with (S (S (2 * q))) by lia.
      replace (Nat.min (S (S (2 * q)) + 1) (length (a :: b :: l) - 1))
        with (S (S (Nat.min (2 * q + 1) (length l - 1))))
        by (cbn [length]; lia).
      cbn [pair_up nth]. apply IH. lia.
Qed.

(** The entry at position [q] of the next level combines the entries
    [2q] and [min (2q+1) (size-1)] of the level below. *)
Lemma pair_up_at level q :
  0 <= q -> 2 * q < Z.of_nat (length level) ->
  vec_at (pair_up Hash level) q
  = Hash (vec_at level (2 * q))
         (vec_at level (Z.min (2 * q + 1) (Z.of_nat (length level) - 1))).
Proof.
  intros Hq Hlt.
  replace q with (Z.of_nat (Z.to_nat q)) in * by lia.
  set (k := Z.to_nat q) in *.
  replace (2 * Z.of_nat k) with (Z.of_nat (2 * k)) in * by lia.
  replace (Z.min (Z.of_nat (2 * k) + 1) (Z.of_nat (length level) - 1))
    with (Z.of_nat (Nat.min (2 * k + 1) (length level - 1))) by lia.
  rewrite !vec_at_of_nat. apply pair_up_nth. lia.
Qed.

Lemma merkle_row_done fuel tree j nSize i :
  nSize <= i -> merkle_row Hash fuel tree j nSize i = tree.
Proof.
  intros Hi. destruct fuel as [|fuel]; [reflexivity|]. simpl.
  destruct (Z.ltb_spec i nSize); [lia|reflexivity].
Qed.

(** A run of the inner loop from position [length done] appends the
    pairing of the entries that are left. *)
Lemma merkle_row_spec fuel : forall rest done pre acc,
  (length rest <= fuel)%nat ->
  merkle_row Hash fuel (pre ++ (done ++ rest) ++ acc)
    (Z.of_nat (length pre)) (Z.of_nat (length (done ++ rest)))
    (Z.of_nat (length done))
  = pre ++ (done ++ rest) ++ acc ++ pair_up Hash rest.
Proof.
  induction fuel as [|fuel IH]; intros rest done pre acc Hfuel.
  - destruct rest; [|simpl in Hfuel; lia].
    simpl. now rewrite !List.app_nil_r.
  - destruct rest as [|a [|b rest]].
    + rewrite merkle_row_done by (rewrite List.app_nil_r; lia).
      simpl. now rewrite !List.app_nil_r.
    + cbn [merkle_row].
      rewrite List.length_app. cbn [length].
      destruct (Z.ltb_spec (Z.of_nat (length done))
                  (Z.of_nat (length done + 1))) as [_|]; [|lia].
      rewrite Z.min_r by lia.
      replace (Z.of_nat (length done + 1) - 1)
        with (Z.of_nat (length done)) by lia.
      replace (Z.of_nat (length pre) + Z.of_nat (length done))
        with (Z.of_nat (length (pre ++ done)))
        by (rewrite List.length_app; lia).
      replace (pre ++ (done ++ [a]) ++ acc)
        with ((pre ++ done) ++ a :: acc)
        by (now rewrite <- !List.app_assoc).
      rewrite vec_at_middle.
      rewrite merkle_row_done by lia.
      cbn [pair_up]. now rewrite <- !List.app_assoc.
    + cbn [merkle_row].
      rewrite List.length_app. cbn [length].
      destruct (Z.ltb_spec (Z.of_nat (length done))
                  (Z.of_nat (length done + S (S (length rest)))))
        as [_|]; [|lia].
      rewrite Z.min_l by lia.
      replace (Z.of_nat (length pre) + (Z.of_nat (length done) + 1))
        with (Z.of_nat (length (pre ++ done ++ [a])))
        by (rewrite !List.length_app; cbn [length]; lia).
      replace (Z.of_nat (length pre) + Z.of_nat (length done))
        with (Z.of_nat (length (pre ++ done)))
        by (rewrite List.length_app; lia).
      replace (vec_at (pre ++ (done ++ a :: b :: rest) ++ acc)
                 (Z.of_nat (length (pre ++ done)))) with a
        by (replace (pre ++ (done ++ a :: b :: rest) ++ acc)
              with ((pre ++ done) ++ a :: (b :: rest) ++ acc)
              by (now rewrite <- !List.app_assoc);
            now rewrite vec_at_middle).
      replace (vec_at (pre ++ (done ++ a :: b :: rest) ++ acc)
                 (Z.of_nat (length (pre ++ done ++ [a])))) with b
        by (replace (pre ++ (done ++ a :: b :: rest) ++ acc)
              with ((pre ++ done ++ [a]) ++ b :: rest ++ acc)
              by (now rewrite <- !List.app_assoc);
            now rewrite vec_at_middle).
      specialize (IH rest (done ++ [a; b]) pre (acc ++ [Hash a b])).
      replace ((done ++ [a; b]) ++ rest) with (done ++ a :: b :: rest) in IH
        by (now rewrite <- List.app_assoc).
      replace (Z.of_nat (length (done ++ [a; b])))
        with (Z.of_nat (length done) + 2) in IH
        by (rewrite List.length_app; cbn [length]; lia).
      rewrite List.length_app in IH. cbn [length] in IH.
      cbn [pair_up].
      rewrite <- ?List.app_assoc in IH. rewrite <- ?List.app_assoc.
      cbn [app] in IH |- *.
      apply IH. cbn [length] in Hfuel. lia.
Qed.

Lemma merkle_row_full level pre :
  merkle_row Hash (length level) (pre ++ level)
    (Z.of_nat (length pre)) (Z.of_nat (length level)) 0
  = pre ++ level ++ pair_up Hash level.
Proof.
  pose proof (merkle_row_spec (length level) level [] pre []
                (Nat.le_refl _)) as H.
  cbn [app length] in H. rewrite List.app_nil_r in H. exact H.
Qed.

(** The inner loop over a row of [nSize] entries is over after
    [nSize] rounds: more fuel changes nothing. *)
Lemma merkle_row_fuel level pre fuel :
  (length level <= fuel)%nat ->
  merkle_row Hash fuel (pre ++ level)
    (Z.of_nat (length pre)) (Z.of_nat (length level)) 0
  = merkle_row Hash (length level) (pre ++ level)
      (Z.of_nat (length pre)) (Z.of_nat (length level)) 0.
Proof.
  intros Hfuel. rewrite merkle_row_full.
  pose proof (merkle_row_spec fuel level [] pre [] Hfuel) as H.
  cbn [app length] in H. rewrite List.app_nil_r in H. exact H.
Qed.

Lemma merkle_levels_spec fuel : forall level pre,
  merkle_levels Hash fuel (pre ++ level)
    (Z.of_nat (length pre)) (Z.of_nat (length level))
  = pre ++ tree_of Hash fuel level.
Proof.
  induction fuel as [|fuel IH]; intros level pre; [reflexivity|].
  cbn [merkle_levels tree_of].
  destruct (Z.ltb_spec 1 (Z.of_nat (length level))) as [Hlt|Hge];
    [|reflexivity].
  rewrite Nat2Z.id, merkle_row_full.
  rewrite <- pair_up_length, <- Nat2Z.inj_add, <- List.length_app.
  rewrite List.app_assoc, IH. now rewrite <- List.app_assoc.
Qed.

Lemma pair_up_shrinks level :
  (1 < length level)%nat ->
  (0 < length (pair_up Hash level) < length level)%nat.
Proof.
  intros Hlen. pose proof (pair_up_length level) as H.
  rewrite Z.quot_div_nonneg in H by lia.
  pose proof (Z.div_mod (Z.of_nat (length level) + 1) 2 ltac:(lia)).
  pose proof (Z.mod_pos_bound (Z.of_nat (length level) + 1) 2 ltac:(lia)).
  lia.
Qed.

(** With as much fuel as the bottom level is long, the outer loop leaves
    through its guard: the array holds exactly the levels of the
    specification, and the last level is the root alone. *)
Lemma tree_of_levels fuel : forall level,
  (length level <= fuel)%nat ->
  exists ls,
    levels_from Hash level ls /\
    tree_of Hash fuel level = concat ls /\
    List.last ls [] = match level with
                      | [] => []
                      | _ => [root_of Hash fuel level]
                      end.
Proof.
  induction fuel as [|fuel IH]; intros level Hfuel.
  - destruct level; [|simpl in Hfuel; lia].
    exists [[]]. split; [constructor; simpl; lia|]. split; reflexivity.
  - cbn [tree_of root_of].
    destruct (Z.ltb_spec 1 (Z.of_nat (length level))) as [Hlt|Hge].
    + pose proof (pair_up_shrinks level ltac:(lia)) as Hsh.
      destruct (IH (pair_up Hash level) ltac:(lia)) as (ls & Hls & Hflat & Hlast).
      exists (level :: ls). split; [constructor; [lia|exact Hls]|].
      split; [cbn [concat]; now rewrite Hflat|].
      assert (Hne : ls <> []) by (inversion Hls; discriminate).
      destruct ls as [|l0 ls]; [congruence|].
      change (List.last (level :: l0 :: ls) []) with (List.last (l0 :: ls) []).
      rewrite Hlast.
      destruct (pair_up Hash level) eqn:Hp; [simpl in Hsh; lia|].
      destruct level; [simpl in Hlt; lia|reflexivity].
    + exists [level]. split; [constructor; lia|].
      split; [cbn [concat]; now rewrite List.app_nil_r|].
      destruct level as [|a [|b l]]; try reflexivity.
      simpl in Hge. lia.
Qed.

Lemma last_app_nonempty (l1 l2 : list uint256) d :
  l2 <> [] -> List.last (l1 ++ l2) d = List.last l2 d.
Proof.
  intros Hne. induction l1 as [|x l1 IH]; [reflexivity|].
  cbn [app]. destruct (l1 ++ l2) eqn:E.
  - destruct l1; [simpl in E; congruence|discriminate].
  - exact IH.
Qed.

Lemma tree_of_nonempty fuel level : level <> [] -> tree_of Hash fuel level <> [].
Proof.
  intros Hne. destruct fuel; cbn [tree_of]; [exact Hne|].
  destruct (1 <? Z.of_nat (length level)); [|exact Hne].
  destruct level; [congruence|discriminate].
Qed.

Lemma last_tree_of fuel : forall level,
  level <> [] -> (length level <= fuel)%nat ->
  List.last (tree_of Hash fuel level) 0 = root_of Hash fuel level.
Proof.
  induction fuel as [|fuel IH]; intros level Hne Hfuel.
  - destruct level; [congruence|simpl in Hfuel; lia].
  - cbn [tree_of root_of].
    destruct (Z.ltb_spec 1 (Z.of_nat (length level))) as [Hlt|Hge].
    + pose proof (pair_up_shrinks level ltac:(lia)) as Hsh.
      assert (Hp : pair_up Hash level <> []).
      { intros E. rewrite E in Hsh. simpl in Hsh. lia. }
      rewrite last_app_nonempty by now apply tree_of_nonempty.
      apply IH; [exact Hp|lia].
    + destruct level as [|a [|b l]]; [congruence|reflexivity|].
      simpl in Hge. lia.
Qed.

(** The outer loop over a bottom level of [n] hashes is over after [n]
    rounds: more fuel changes nothing. *)
Lemma tree_of_fuel fuel : forall k level,
  (length level <= fuel)%nat ->
  tree_of Hash (fuel + k) level = tree_of Hash fuel level.
Proof.
  induction fuel as [|fuel IH]; intros k level Hfuel.
  - destruct level; [|simpl in Hfuel; lia]. now destruct k.
  - cbn [Nat.add tree_of].
    destruct (Z.ltb_spec 1 (Z.of_nat (length level))) as [Hlt|Hge];
      [|reflexivity].
    pose proof (pair_up_shrinks level ltac:(lia)).
    rewrite IH by lia. reflexivity.
Qed.

Lemma merkle_levels_fuel fuel k level pre :
  (length level <= fuel)%nat ->
  merkle_levels Hash (fuel + k) (pre ++ level)
    (Z.of_nat (length pre)) (Z.of_nat (length level))
  = merkle_levels Hash fuel (pre ++ level)
      (Z.of_nat (length pre)) (Z.of_nat (length level)).
Proof.
  intros Hfuel. rewrite !merkle_levels_spec. now rewrite tree_of_fuel.
Qed.

(** So is the loop of [GetMerkleBranch], which walks the same sizes. *)
Lemma branch_loop_fuel fuel : forall k tree acc j nSize nIndex,
  nSize <= Z.of_nat fuel ->
  branch_loop (fuel + k) tree acc j nSize nIndex
  = branch_loop fuel tree acc j nSize nIndex.
Proof.
  induction fuel as [|fuel IH]; intros k tree acc j nSize nIndex Hfuel.
  - cbn [Nat.add branch_loop]. destruct k; [reflexivity|].
    cbn [branch_loop]. destruct (Z.ltb_spec 1 nSize); [lia|reflexivity].
  - cbn [Nat.add branch_loop].
    destruct (Z.ltb_spec 1 nSize) as [Hlt|Hge]; [|reflexivity].
    apply IH. rewrite Z.quot_div_nonneg by lia.
    pose proof (Z.div_mod (nSize + 1) 2 ltac:(lia)).
    pose proof (Z.mod_pos_bound (nSize + 1) 2 ltac:(lia)).
    lia.
Qed.

(** What [BuildMerkleTree] returns and caches, in closed form. *)
Lemma BuildMerkleTree_eq (b : CBlock CTransaction CAuxPow) :
  let hashes := map TxGetHash (vtx b) in
  BuildMerkleTree TxGetHash Hash b
  = (match hashes with
     | [] => 0
     | _ => root_of Hash (length hashes) hashes
     end,
     set_vMerkleTree b (tree_of Hash (length hashes) hashes)).
Proof.
  intros hashes. unfold BuildMerkleTree.
  rewrite push_tx_hashes_map. fold hashes.
  replace (length (vtx b)) with (length hashes)
    by (unfold hashes; apply List.length_map).
  pose proof (merkle_levels_spec (length hashes) hashes []) as H.
  cbn [app length] in H. change (Z.of_nat 0) with 0 in H. rewrite H.
  f_equal.
  destruct hashes as [|h hs] eqn:E; [reflexivity|].
  pose proof (tree_of_nonempty (length (h :: hs)) (h :: hs) ltac:(discriminate)).
  destruct (tree_of Hash (length (h :: hs)) (h :: hs)) eqn:Et; [congruence|].
  rewrite <- Et. apply last_tree_of; [discriminate|lia].
Qed.

(** C3.  [BuildMerkleTree] returns 0 for a block without transactions;
    for every block, the array it caches is the concatenation of the
    levels of the specification, where the bottom level holds the
    transaction hashes in order, every further level is the pairing
    [pair_up] of the one below it (adjacent hashes combined, the last
    hash of an odd level combined with itself), and the top level is
    the returned root alone. *)
Theorem BuildMerkleTree_levels :
  (forall h cache,
     fst (BuildMerkleTree TxGetHash Hash
            (mkBlock (CAuxPow := CAuxPow) h [] cache)) = 0) /\
  (forall b : CBlock CTransaction CAuxPow,
     exists ls,
       levels_from Hash (map TxGetHash (vtx b)) ls /\
       vMerkleTree (snd (BuildMerkleTree TxGetHash Hash b)) = concat ls /\
       List.last ls [] = match vtx b with
                         | [] => []
                         | _ => [fst (BuildMerkleTree TxGetHash Hash b)]
                         end).
Proof.
  split; [reflexivity|]. intros b.
  rewrite BuildMerkleTree_eq. cbn [fst snd set_vMerkleTree vMerkleTree].
  destruct (tree_of_levels (length (map TxGetHash (vtx b)))
              (map TxGetHash (vtx b)) (Nat.le_refl _))
    as (ls & Hls & Hflat & Hlast).
  exists ls. split; [exact Hls|]. split; [exact Hflat|].
  rewrite Hlast. now destruct (vtx b).
Qed.

Lemma land_1 k : 0 <= k -> Z.land k 1 = k mod 2.
Proof. intros _. change 1 with (Z.ones 1) at 1. now rewrite Z.land_ones. Qed.

Lemma shiftr_1 k : Z.shiftr k 1 = k / 2.
Proof. now rewrite Z.shiftr_div_pow2. Qed.

Lemma lxor_1 k : 0 <= k -> Z.lxor k 1 = k + 1 - 2 * (k mod 2).
Proof.
  intros Hk. rewrite Zmod_odd.
  destruct k as [|p|p]; [reflexivity| |lia].
  destruct p as [p|p|]; cbn [Z.odd]; try reflexivity.
  change (Z.lxor (Z.pos p~1) 1) with (Z.pos p~0).
  rewrite Pos2Z.inj_xO, Pos2Z.inj_xI. lia.
Qed.

Lemma vec_at_inner pre level post i :
  0 <= i < Z.of_nat (length level) ->
  vec_at (pre ++ level ++ post) (Z.of_nat (length pre) + i) = vec_at level i.
Proof.
  intros Hi. unfold vec_at.
  replace (Z.to_nat (Z.of_nat (length pre) + i))
    with (length pre + Z.to_nat i)%nat by lia.
  rewrite List.app_nth2_plus. apply List.app_nth1. lia.
Qed.

(** One round of [CheckMerkleBranch], fed with the sibling that
    [GetMerkleBranch] picks, climbs to the parent entry. *)
Lemma check_step_parent level idx :
  0 <= idx < Z.of_nat (length level) ->
  check_step Hash (vec_at level idx, idx)
    (vec_at level (Z.min (Z.lxor idx 1) (Z.of_nat (length level) - 1)))
  = (vec_at (pair_up Hash level) (Z.shiftr idx 1), Z.shiftr idx 1).
Proof.
  intros Hidx. unfold check_step.
  rewrite land_1, lxor_1, shiftr_1 by lia.
  pose proof (Z.div_mod idx 2 ltac:(lia)) as Hdm.
  pose proof (Z.mod_pos_bound idx 2 ltac:(lia)) as Hm.
  rewrite (pair_up_at level (idx / 2)) by lia.
  f_equal.
  destruct (Z.eqb_spec (idx mod 2) 0) as [E|E]; cbn [negb].
  - rewrite E in *. replace (2 * (idx / 2)) with idx by lia.
    now replace (idx + 1 - 2 * 0) with (idx + 1) by lia.
  - assert (E1 : idx mod 2 = 1) by lia. rewrite E1 in *.
    rewrite Z.min_l by lia. rewrite Z.min_l by lia.
    replace (idx + 1 - 2 * 1) with (2 * (idx / 2)) by lia.
    now replace (2 * (idx / 2) + 1) with idx by lia.
Qed.

Lemma branch_loop_check fuel : forall level pre acc idx,
  (length level <= fuel)%nat -> 0 <= idx < Z.of_nat (length level) ->
  exists br,
    branch_loop fuel (pre ++ tree_of Hash fuel level) acc
      (Z.of_nat (length pre)) (Z.of_nat (length level)) idx = acc ++ br /\
    fst (fold_left (check_step Hash) br (vec_at level idx, idx))
    = root_of Hash fuel level.
Proof.
  induction fuel as [|fuel IH]; intros level pre acc idx Hfuel Hidx.
  - destruct level; simpl in *; lia.
  - cbn [branch_loop tree_of root_of].
    destruct (Z.ltb_spec 1 (Z.of_nat (length level))) as [Hlt|Hge].
    + pose proof (pair_up_shrinks level ltac:(lia)) as Hsh.
      pose proof (pair_up_length level) as Hlen.
      rewrite Z.quot_div_nonneg in Hlen by lia.
      assert (Hsib : 0 <= Z.min (Z.lxor idx 1) (Z.of_nat (length level) - 1)
                     < Z.of_nat (length level)).
      { rewrite lxor_1 by lia.
        pose proof (Z.mod_pos_bound idx 2 ltac:(lia)).
        pose proof (Z.div_mod idx 2 ltac:(lia)).
        pose proof (Z.div_pos idx 2 ltac:(lia) ltac:(lia)). lia. }
      rewrite vec_at_inner by exact Hsib.
      rewrite <- pair_up_length, <- Nat2Z.inj_add, <- List.length_app.
      rewrite List.app_assoc.
      destruct (IH (pair_up Hash level) (pre ++ level)
                   (acc ++ [vec_at level
                      (Z.min (Z.lxor idx 1) (Z.of_nat (length level) - 1))])
                   (Z.shiftr idx 1)) as (br & Hbr & Hchk).
      * lia.
      * rewrite shiftr_1, Hlen.
        pose proof (Z.div_mod idx 2 ltac:(lia)).
        pose proof (Z.mod_pos_bound idx 2 ltac:(lia)).
        pose proof (Z.div_mod (Z.of_nat (length level) + 1) 2 ltac:(lia)).
        pose proof (Z.mod_pos_bound (Z.of_nat (length level) + 1) 2 ltac:(lia)).
        lia.
      * eexists. split; [rewrite Hbr, <- List.app_assoc; reflexivity|].
        cbn [app fold_left]. rewrite check_step_parent by exact Hidx.
        exact Hchk.
    + exists []. split; [now rewrite List.app_nil_r|].
      destruct level as [|a [|b l]]; simpl in Hidx, Hge; try lia.
      assert (idx = 0) as -> by lia. reflexivity.
Qed.

(** The member functions of this file keep the cache coherent:
    [BuildMerkleTree] reads the transactions only and installs their
    tree, and [GetMerkleBranch] builds the tree when the cache is empty
    and leaves the block alone otherwise. *)
Lemma BuildMerkleTree_reads_vtx (b : CBlock CTransaction CAuxPow) t :
  BuildMerkleTree TxGetHash Hash (set_vMerkleTree b t)
  = (fst (BuildMerkleTree TxGetHash Hash b),
     set_vMerkleTree b (vMerkleTree (snd (BuildMerkleTree TxGetHash Hash b)))).
Proof. reflexivity. Qed.

Lemma BuildMerkleTree_coherent (b : CBlock CTransaction CAuxPow) :
  cache_coherent TxGetHash Hash (snd (BuildMerkleTree TxGetHash Hash b)).
Proof. right. reflexivity. Qed.

Lemma GetMerkleBranch_coherent (b : CBlock CTransaction CAuxPow) nIndex :
  cache_coherent TxGetHash Hash b ->
  cache_coherent TxGetHash Hash
    (snd (GetMerkleBranch TxGetHash Hash b nIndex)).
Proof.
  intros Hc. unfold GetMerkleBranch. cbn [snd].
  destruct (vMerkleTree b) eqn:E.
  - apply BuildMerkleTree_coherent.
  - exact Hc.
Qed.

(** The sentinel index -1 of [CheckMerkleBranch] yields 0 whatever the
    branch is. *)
Lemma CheckMerkleBranch_no_leaf hash branch :
  CheckMerkleBranch Hash hash branch (-1) = 0.
Proof. reflexivity. Qed.

(** C2.  In a block whose Merkle cache is coherent, for every valid
    index [i] into the transaction list, replaying the branch returned by
    [GetMerkleBranch i] from the hash of transaction [i] with
    [CheckMerkleBranch] yields the root returned by [BuildMerkleTree]. *)
Theorem merkle_branch_round_trip
  (b : CBlock CTransaction CAuxPow) (i : nat) (tx : CTransaction) :
  vtx b !! i = Some tx ->
  cache_coherent TxGetHash Hash b ->
  CheckMerkleBranch Hash (TxGetHash tx)
    (fst (GetMerkleBranch TxGetHash Hash b (Z.of_nat i))) (Z.of_nat i)
  = fst (BuildMerkleTree TxGetHash Hash b).
Proof.
  intros Htx Hcache.
  set (hashes := map TxGetHash (vtx b)).
  assert (Hlen : length hashes = length (vtx b)) by apply List.length_map.
  assert (Hi : (i < length (vtx b))%nat) by (eapply lookup_lt_Some; eauto).
  assert (Hleaf : vec_at hashes (Z.of_nat i) = TxGetHash tx).
  { rewrite vec_at_of_nat. apply nth_lookup_Some.
    unfold hashes. change (map TxGetHash (vtx b)) with (TxGetHash <$> vtx b).
    now rewrite list_lookup_fmap, Htx. }
  assert (Hne : hashes <> []).
  { intros E. rewrite E in Hlen. simpl in Hlen. lia. }
  assert (Hb' : exists b',
    GetMerkleBranch TxGetHash Hash b (Z.of_nat i)
    = (branch_loop (length hashes) (tree_of Hash (length hashes) hashes) []
         0 (Z.of_nat (length hashes)) (Z.of_nat i), b')).
  { unfold GetMerkleBranch. unfold cache_coherent in Hcache.
    rewrite BuildMerkleTree_eq in *. fold hashes in Hcache |- *.
    cbn [snd vMerkleTree set_vMerkleTree vtx] in *. rewrite Hlen in *.
    destruct (vMerkleTree b) as [|t0 ts] eqn:Ecache.
    - cbn [vtx vMerkleTree set_vMerkleTree]. eauto.
    - destruct Hcache as [Hc|Hc]; [discriminate|]. rewrite Ecache, Hc. eauto. }
  destruct Hb' as [b' ->]. cbn [fst].
  destruct (branch_loop_check (length hashes) hashes [] [] (Z.of_nat i)
              (Nat.le_refl _) ltac:(lia)) as (br & Hbr & Hchk).
  cbn [app length] in Hbr. change (Z.of_nat 0) with 0 in Hbr. rewrite Hbr.
  unfold CheckMerkleBranch.
  destruct (Z.eqb_spec (Z.of_nat i) (-1)) as [E|_]; [lia|].
  rewrite <- Hleaf, Hchk, BuildMerkleTree_eq. fold hashes. cbn [fst].
  destruct hashes; [congruence|reflexivity].
Qed.

End MerkleFacts.

Lemma merkle_branch_round_trip_witness :
  (vtx demo_block !! 2%nat = Some 33 /\
   cache_coherent (fun t => t) demo_hash demo_block) /\
  CheckMerkleBranch demo_hash 33
    (fst (GetMerkleBranch (fun t => t) demo_hash demo_block 2)) 2
  = fst (BuildMerkleTree (fun t => t) demo_hash demo_block).
Proof.
  split; [split; [reflexivity | left; reflexivity]|].
  apply (merkle_branch_round_trip (fun t => t) demo_hash demo_block 2 33).
  - reflexivity.
  - left. reflexivity.
Defined.

(* --------------------------------------------------------------------- *)
(** ** Proof-of-work verifier                                             *)
(* --------------------------------------------------------------------- *)

Section ProofOfWorkFacts.

Context {CAuxPow : Type}.
Context (TestNet : bool) (SetCompact : Z -> Z) (ProofOfWorkLimit : Z).
Context (getuint256 : Z -> uint256).
Context (HashSkein : Z -> uint256 -> uint256 -> Z -> Z -> Z -> uint256).
Context (ChainIDOfVersion : Z -> Z) (GetOurChainID : Z).
Context (AuxPowCheck : CAuxPow -> uint256 -> Z -> bool).
Context (GetParentBlockHash : CAuxPow -> uint256).

Local Abbreviation base_check :=
  (CheckProofOfWork SetCompact ProofOfWorkLimit getuint256).
Local Abbreviation header_check :=
  (CBlockHeader_CheckProofOfWork CAuxPow TestNet SetCompact ProofOfWorkLimit
     getuint256 HashSkein ChainIDOfVersion GetOurChainID AuxPowCheck
     GetParentBlockHash).
Local Abbreviation header_hash := (GetHash CAuxPow HashSkein).
Local Abbreviation chain_id := (GetChainID CAuxPow ChainIDOfVersion).

Implicit Types (h : CBlockHeader CAuxPow) (nHeight : Z).

(** The verdict of the checks that follow the chain-identity test, at or
    above the activation height. *)
Lemma header_check_after_identity h nHeight :
  GetAuxPowStartBlock TestNet <= nHeight ->
  negb TestNet && negb (nHeight =? INT_MAX)
    && negb (chain_id h =? GetOurChainID) = false ->
  fst (header_check h nHeight)
  = match auxpow h with
    | Some pow =>
        AuxPowCheck pow (header_hash h) (chain_id h)
        && fst (base_check (GetParentBlockHash pow) (nBits h))
    | None => fst (base_check (header_hash h) (nBits h))
    end.
Proof.
  intros Hact Hid. unfold CBlockHeader_CheckProofOfWork.
  destruct (Z.leb_spec (GetAuxPowStartBlock TestNet) nHeight); [|lia].
  rewrite Hid. destruct (auxpow h) as [pow|].
  - destruct (AuxPowCheck pow _ _); cbn [negb andb]; [|reflexivity].
    now destruct (fst (base_check _ _)).
  - now destruct (fst (base_check _ _)).
Qed.

(** C5, as amended.  At or above the activation height, off the test
    network and at a height other than [INT_MAX], a header whose chain
    identity differs from our own fails with the chain-ID message. *)
Theorem foreign_chain_id_rejected h nHeight :
  TestNet = false ->
  GetAuxPowStartBlock TestNet <= nHeight ->
  nHeight <> INT_MAX ->
  chain_id h <> GetOurChainID ->
  header_check h nHeight
  = error "CheckProofOfWork() : block does not have our chain ID".
Proof.
  intros Htest Hact Hmax Hid. unfold CBlockHeader_CheckProofOfWork.
  destruct (Z.leb_spec (GetAuxPowStartBlock TestNet) nHeight); [|lia].
  rewrite Htest.
  destruct (Z.eqb_spec nHeight INT_MAX); [congruence|].
  destruct (Z.eqb_spec (chain_id h) GetOurChainID); [congruence|].
  reflexivity.
Qed.

(** C6, as amended.  At or above the activation height a header with an
    auxiliary record passes only if the record's [Check], called with the
    header's hash and the chain identity declared by the header, succeeds
    and the base check passes for the hash of the parent-chain block under
    the header's [nBits]; the declared identity is our own one whenever
    the check runs off the test network at a height other than
    [INT_MAX]. *)
Theorem auxpow_header_accepted_only_if h pow nHeight :
  GetAuxPowStartBlock TestNet <= nHeight ->
  auxpow h = Some pow ->
  fst (header_check h nHeight) = true ->
  AuxPowCheck pow (header_hash h) (chain_id h) = true /\
  fst (base_check (GetParentBlockHash pow) (nBits h)) = true /\
  (TestNet = false -> nHeight <> INT_MAX -> chain_id h = GetOurChainID).
Proof.
  intros Hact Haux Hok.
  destruct (negb TestNet && negb (nHeight =? INT_MAX)
            && negb (chain_id h =? GetOurChainID)) eqn:Hid.
  - unfold CBlockHeader_CheckProofOfWork in Hok.
    destruct (Z.leb_spec (GetAuxPowStartBlock TestNet) nHeight); [|lia].
    rewrite Hid in Hok. discriminate.
  - rewrite (header_check_after_identity h nHeight Hact Hid), Haux in Hok.
    apply andb_true_iff in Hok. destruct Hok as [Hc Hb].
    split; [exact Hc|]. split; [exact Hb|].
    intros Htest Hmax. rewrite Htest in Hid.
    destruct (Z.eqb_spec nHeight INT_MAX); [congruence|].
    destruct (Z.eqb_spec (chain_id h) GetOurChainID); [assumption|].
    discriminate.
Qed.

(** C7.  Below the activation height a header with an auxiliary record
    fails at once with the message that auxiliary proof-of-work is not
    allowed at this block, and a header without one gets the verdict of
    the base check on its own hash. *)
Theorem below_activation_height h nHeight :
  nHeight < GetAuxPowStartBlock TestNet ->
  match auxpow h with
  | Some _ =>
      header_check h nHeight
      = error "CheckProofOfWork() : AUX POW is not allowed at this block"
  | None =>
      fst (header_check h nHeight) = fst (base_check (header_hash h) (nBits h))
  end.
Proof.
  intros Hlow. unfold CBlockHeader_CheckProofOfWork.
  destruct (Z.leb_spec (GetAuxPowStartBlock TestNet) nHeight); [lia|].
  destruct (auxpow h); [reflexivity|].
  now destruct (fst (base_check _ _)).
Qed.

(** C10.  Off the test network, at height [INT_MAX] (which is above the
    activation height) the chain identities are not compared: the verdict
    is that of the proof-of-work checks alone, so a header with a foreign
    chain identity passes as soon as those do. *)
Theorem int_max_height_skips_chain_id h :
  TestNet = false ->
  GetAuxPowStartBlock TestNet <= INT_MAX /\
  fst (header_check h INT_MAX)
  = match auxpow h with
    | Some pow =>
        AuxPowCheck pow (header_hash h) (chain_id h)
        && fst (base_check (GetParentBlockHash pow) (nBits h))
    | None => fst (base_check (header_hash h) (nBits h))
    end.
Proof.
  intros Htest.
  assert (Hact : GetAuxPowStartBlock TestNet <= INT_MAX).
  { rewrite Htest. unfold GetAuxPowStartBlock, INT_MAX. lia. }
  split; [exact Hact|].
  apply header_check_after_identity; [exact Hact|].
  rewrite Z.eqb_refl. cbn [negb]. now rewrite andb_false_r.
Qed.

End ProofOfWorkFacts.

Lemma foreign_chain_id_rejected_witness :
  (false = false /\
   GetAuxPowStartBlock false <= 1000000 /\ 1000000 <> INT_MAX /\
   GetChainID (Z * uint256) demo_chain_id foreign_header <> demo_our_chain) /\
  demo_header_check false foreign_header 1000000
  = error "CheckProofOfWork() : block does not have our chain ID".
Proof.
  split.
  - repeat split; vm_compute; congruence.
  - apply (foreign_chain_id_rejected false demo_SetCompact demo_limit
             demo_getuint256 demo_HashSkein demo_chain_id demo_our_chain
             demo_aux_check demo_parent_hash foreign_header 1000000).
    + reflexivity.
    + vm_compute. discriminate.
    + vm_compute. discriminate.
    + vm_compute. discriminate.
Defined.

(** C5 as stated fails: off the test network, at the height [INT_MAX]
    (above the activation height 1000000) a header of chain 5 passes
    although our chain is 1. *)
Lemma foreign_chain_id_passes_at_int_max :
  GetAuxPowStartBlock false <= INT_MAX /\
  GetChainID (Z * uint256) demo_chain_id foreign_header <> demo_our_chain /\
  fst (demo_header_check false foreign_header INT_MAX) = true.
Proof.
  split; [vm_compute; discriminate|].
  split; [vm_compute; discriminate|reflexivity].
Qed.

Lemma auxpow_header_accepted_only_if_witness :
  (GetAuxPowStartBlock false <= 1000000 /\
   auxpow own_aux_header = Some (1, 7) /\
   fst (demo_header_check false own_aux_header 1000000) = true) /\
  demo_aux_check (1, 7) (GetHash (Z * uint256) demo_HashSkein own_aux_header)
    (GetChainID (Z * uint256) demo_chain_id own_aux_header) = true /\
  fst (CheckProofOfWork demo_SetCompact demo_limit demo_getuint256
         (demo_parent_hash (1, 7)) (nBits own_aux_header)) = true /\
  (false = false -> 1000000 <> INT_MAX ->
   GetChainID (Z * uint256) demo_chain_id own_aux_header = demo_our_chain).
Proof.
  split.
  - split; [vm_compute; discriminate|]. split; reflexivity.
  - apply (auxpow_header_accepted_only_if false demo_SetCompact demo_limit
             demo_getuint256 demo_HashSkein demo_chain_id demo_our_chain
             demo_aux_check demo_parent_hash own_aux_header (1, 7) 1000000).
    + vm_compute. discriminate.
    + reflexivity.
    + reflexivity.
Defined.

(** C6 as stated fails: on the test network (activation height 0) a
    header of chain 5 with an auxiliary record vouching for chain 5
    passes at height 10, although the record's [Check] rejects our own
    chain identity 1. *)
Lemma auxpow_checked_against_declared_chain :
  GetAuxPowStartBlock true <= 10 /\
  auxpow foreign_aux_header = Some (5, 7) /\
  fst (demo_header_check true foreign_aux_header 10) = true /\
  demo_aux_check (5, 7)
    (GetHash (Z * uint256) demo_HashSkein foreign_aux_header)
    demo_our_chain = false.
Proof.
  split; [vm_compute; discriminate|]. repeat split; reflexivity.
Qed.

Lemma below_activation_height_witness :
  5 < GetAuxPowStartBlock false /\
  demo_header_check false own_aux_header 5
  = error "CheckProofOfWork() : AUX POW is not allowed at this block" /\
  fst (demo_header_check false foreign_header 5)
  = fst (CheckProofOfWork demo_SetCompact demo_limit demo_getuint256
           (GetHash (Z * uint256) demo_HashSkein foreign_header)
           (nBits foreign_header)).
Proof.
  split; [reflexivity|]. split.
  - apply (below_activation_height false demo_SetCompact demo_limit
             demo_getuint256 demo_HashSkein demo_chain_id demo_our_chain
             demo_aux_check demo_parent_hash own_aux_header 5).
    reflexivity.
  - apply (below_activation_height false demo_SetCompact demo_limit
             demo_getuint256 demo_HashSkein demo_chain_id demo_our_chain
             demo_aux_check demo_parent_hash foreign_header 5).
    reflexivity.
Defined.

Lemma int_max_height_skips_chain_id_witness :
  (false = false /\
   GetChainID (Z * uint256) demo_chain_id foreign_header <> demo_our_chain) /\
  fst (demo_header_check false foreign_header INT_MAX) = true.
Proof.
  split; [split; [reflexivity | vm_compute; discriminate]|].
  pose proof (int_max_height_skips_chain_id false demo_SetCompact demo_limit
                demo_getuint256 demo_HashSkein demo_chain_id demo_our_chain
                demo_aux_check demo_parent_hash foreign_header eq_refl)
    as [_ H].
  unfold demo_header_check. rewrite H. reflexivity.
Defined.

(* --------------------------------------------------------------------- *)
(** ** Coin entry model                                                   *)
(* --------------------------------------------------------------------- *)

Section CoinEntryFacts.

Context (IsNull : CTxOut -> bool) (SetNull : CTxOut -> CTxOut).

Implicit Types (c : CCoins) (out : COutPoint) (undo : CTxInUndo).
Implicit Types (vout : list CTxOut) (o : CTxOut).

(** What the trimming of [Cleanup] leaves: the outputs up to the last one
    that is not null; what it cuts off is null throughout. *)
Lemma trim_nulls_spec vout :
  exists nulls,
    vout = trim_nulls IsNull vout ++ nulls /\
    forallb IsNull nulls = true /\
    match last (trim_nulls IsNull vout) with
    | Some o => IsNull o = false
    | None => True
    end.
Proof.
  induction vout as [|o rest (nulls & Heq & Hnull & Hlast)].
  - exists []. repeat split.
  - cbn [trim_nulls]. destruct (trim_nulls IsNull rest) as [|o' rest'] eqn:Et.
    + cbn [app] in Heq. subst nulls. destruct (IsNull o) eqn:Ho.
      * exists (o :: rest). split; [reflexivity|]. split; [|exact I].
        cbn [forallb]. now rewrite Ho, Hnull.
      * exists rest. split; [reflexivity|]. split; assumption.
    + exists nulls. split; [cbn [app]; now rewrite Heq at 1|].
      split; [exact Hnull|]. rewrite last_cons.
      destruct (last (o' :: rest')) eqn:El; [exact Hlast|].
      rewrite last_cons in El. destruct (last rest'); discriminate.
Qed.

(** C8.  [Spend] fails exactly when the index is out of range or the
    output at the index is null, and then leaves the entry and the undo
    record as they were.  When it succeeds, the undo record holds the
    output that was live, the entry's outputs are the old ones with that
    output set to null and trailing nulls trimmed, the other fields of the
    entry are kept, and if no output is left the undo record carries the
    entry's version, coinbase flag and height. *)
Theorem Spend_spec c out undo :
  let r := Spend IsNull SetNull c out undo in
  let n := COutPoint.n out in
  (fst (fst r) = false <->
     (length (CCoins.vout c) <= n)%nat \/
     exists o, CCoins.vout c !! n = Some o /\ IsNull o = true) /\
  (fst (fst r) = false -> snd (fst r) = c /\ snd r = undo) /\
  (fst (fst r) = true ->
     exists o,
       CCoins.vout c !! n = Some o /\ IsNull o = false /\
       CTxInUndo.txout (snd r) = o /\
       CCoins.vout (snd (fst r))
       = trim_nulls IsNull (<[n := SetNull o]> (CCoins.vout c)) /\
       CCoins.fCoinBase (snd (fst r)) = CCoins.fCoinBase c /\
       CCoins.nHeight (snd (fst r)) = CCoins.nHeight c /\
       CCoins.nVersion (snd (fst r)) = CCoins.nVersion c /\
       (CCoins.vout (snd (fst r)) = [] ->
        CTxInUndo.nVersion (snd r) = CCoins.nVersion c /\
        CTxInUndo.fCoinBase (snd r) = CCoins.fCoinBase c /\
        CTxInUndo.nHeight (snd r) = CCoins.nHeight c)).
Proof.
  intros r n. subst r. unfold Spend. fold n.
  destruct (Nat.leb_spec (length (CCoins.vout c)) n) as [Hge|Hlt].
  - cbn [fst snd]. split; [tauto|]. split; [tauto|discriminate].
  - destruct (CCoins.vout c !! n) as [o|] eqn:Hlook.
    2: { apply lookup_ge_None in Hlook. lia. }
    destruct (IsNull o) eqn:Hnull; cbn [fst snd].
    + split; [|split; [tauto|discriminate]].
      split; [eauto|reflexivity].
    + split; [|split; [discriminate|]].
      * split; [discriminate|]. intros [Hge|(o' & Ho' & Hn')]; [lia|].
        congruence.
      * intros _. exists o. split; [reflexivity|]. split; [exact Hnull|].
        unfold Cleanup, CTxInUndo_of. cbn [CCoins.set_vout CCoins.vout].
        destruct (trim_nulls IsNull (<[n:=SetNull o]> (CCoins.vout c)))
          as [|o1 rest]; cbn [length Nat.eqb CTxInUndo.txout CCoins.fCoinBase
                               CCoins.nHeight CCoins.nVersion
                               CTxInUndo.fCoinBase CTxInUndo.nHeight
                               CTxInUndo.nVersion];
          repeat split; discriminate.
Qed.

Lemma wrap32_small z : 0 <= z < 2 ^ 32 -> wrap32 z = z.
Proof. intros Hz. unfold wrap32. now apply Z.mod_small. Qed.

Lemma wrap32_add_l a b : wrap32 (wrap32 a + b) = wrap32 (a + b).
Proof. unfold wrap32. now rewrite Zplus_mod_idemp_l. Qed.

Lemma mask_slot_exact b i :
  0 <= b -> 0 <= i -> 2 + b * 8 + i < 2 ^ 32 ->
  mask_slot b i = 2 + b * 8 + i.
Proof.
  intros Hb Hi Hfit. unfold mask_slot.
  rewrite (wrap32_small (b * 8)) by lia.
  rewrite (wrap32_small (2 + b * 8)) by lia.
  apply wrap32_small. lia.
Qed.

Lemma forallb_negb_existsb {A} (f : A -> bool) l :
  forallb f l = negb (existsb (fun x => negb (f x)) l).
Proof.
  induction l as [|x l IH]; [reflexivity|].
  cbn [forallb existsb]. rewrite IH. now destruct (f x).
Qed.

(** The inner loop leaves [fZero] set exactly when the outputs it walks
    over are all null. *)
Lemma mask_group_spec vout (b : nat) : forall fuel i fZero,
  Z.of_nat fuel + i = 8 -> 0 <= i ->
  2 + Z.of_nat b * 8 + 8 < 2 ^ 32 ->
  mask_group IsNull fuel vout (Z.of_nat b) i fZero
  = fZero && forallb IsNull (take fuel (drop (2 + 8 * b + Z.to_nat i) vout)).
Proof.
  induction fuel as [|fuel IH]; intros i fZero Hsum Hi Hfit.
  - cbn [mask_group]. rewrite take_0. cbn [forallb]. now rewrite andb_true_r.
  - cbn [mask_group].
    destruct (Z.ltb_spec i 8) as [_|]; [|lia]. cbn [andb].
    rewrite mask_slot_exact by lia.
    replace (2 + Z.of_nat b * 8 + i)
      with (Z.of_nat (2 + 8 * b + Z.to_nat i)) by lia.
    set (k := (2 + 8 * b + Z.to_nat i)%nat).
    rewrite Nat2Z.id.
    destruct (Z.ltb_spec (Z.of_nat k) (Z.of_nat (length vout))) as [Hin|Hout].
    + destruct (lookup_lt_is_Some_2 vout k ltac:(lia)) as [o Ho].
      rewrite Ho, (drop_S _ _ _ Ho). cbn [take forallb].
      rewrite wrap32_small by lia. rewrite IH by lia.
      replace (2 + 8 * b + Z.to_nat (i + 1))%nat with (S k) by lia.
      destruct (IsNull o), fZero; reflexivity.
    + rewrite drop_ge by lia. rewrite take_nil. cbn [forallb].
      now rewrite andb_true_r.
Qed.

Lemma mask_group_used vout (b : nat) :
  2 + Z.of_nat b * 8 + 8 < 2 ^ 32 ->
  mask_group IsNull 8 vout (Z.of_nat b) 0 true
  = negb (byte_used IsNull vout b).
Proof.
  intros Hfit. rewrite mask_group_spec by lia.
  cbn [andb Z.to_nat]. rewrite Nat.add_0_r.
  apply forallb_negb_existsb.
Qed.

Lemma byte_unused_beyond vout b :
  (length vout <= 2 + 8 * b)%nat -> byte_used IsNull vout b = false.
Proof.
  intros Hb. unfold byte_used. rewrite drop_ge by lia. now rewrite take_nil.
Qed.

Lemma filter_unused_beyond vout k : forall b,
  (length vout <= 2 + 8 * b)%nat ->
  List.filter (byte_used IsNull vout) (seq b k) = [].
Proof.
  induction k as [|k IH]; intros b Hb; [reflexivity|].
  cbn [seq List.filter]. rewrite byte_unused_beyond by lia.
  apply IH. lia.
Qed.

(** The outer loop started at byte [b]: the last used byte from [b] on
    (plus one) replaces [nLastUsedByte], and the number of used bytes from
    [b] on is added to [nNonzeroBytes]. *)
Lemma mask_bytes_spec vout :
  Z.of_nat (length vout) + 8 <= 2 ^ 32 ->
  forall fuel (b : nat) nLast nNonzero,
    8 * Z.of_nat b <= Z.of_nat (length vout) + 5 ->
    0 <= nNonzero < 2 ^ 32 ->
    mask_bytes IsNull fuel vout (Z.of_nat b) nLast nNonzero
    = (match last (List.filter (byte_used IsNull vout) (seq b fuel)) with
       | Some b' => Z.of_nat (S b')
       | None => nLast
       end,
       wrap32 (nNonzero
               + Z.of_nat (length (List.filter (byte_used IsNull vout)
                                     (seq b fuel))))).
Proof.
  intros Hlen. induction fuel as [|fuel IH]; intros b nLast nNonzero Hb Hnz.
  - cbn. rewrite Z.add_0_r. now rewrite wrap32_small.
  - cbn [mask_bytes seq List.filter].
    rewrite mask_slot_exact by lia. rewrite Z.add_0_r.
    destruct (Z.ltb_spec (2 + Z.of_nat b * 8) (Z.of_nat (length vout)))
      as [Hin|Hout].
    + rewrite mask_group_used by lia. rewrite negb_involutive.
      rewrite (wrap32_small (Z.of_nat b + 1)) by lia.
      replace (Z.of_nat b + 1) with (Z.of_nat (S b)) by lia.
      destruct (byte_used IsNull vout b).
      * rewrite IH; [|lia|apply Z.mod_pos_bound; lia].
        rewrite last_cons. cbn [length]. rewrite wrap32_add_l.
        f_equal; [|f_equal; lia].
        now destruct (last (List.filter (byte_used IsNull vout) (seq (S b) fuel))).
      * apply IH; lia.
    + rewrite byte_unused_beyond by lia.
      rewrite filter_unused_beyond by lia.
      cbn. rewrite Z.add_0_r. now rewrite wrap32_small.
Qed.

(** The outer loop is over after [vout.size()] rounds: more fuel changes
    nothing. *)
Lemma mask_bytes_fuel vout k nLast nNonzero :
  Z.of_nat (length vout) + 8 <= 2 ^ 32 ->
  0 <= nNonzero < 2 ^ 32 ->
  mask_bytes IsNull (length vout + k) vout 0 nLast nNonzero
  = mask_bytes IsNull (length vout) vout 0 nLast nNonzero.
Proof.
  intros Hlen Hnz.
  pose proof (mask_bytes_spec vout Hlen) as Hspec.
  specialize (Hspec (length vout + k)%nat 0%nat nLast nNonzero ltac:(lia) Hnz)
    as H1.
  specialize (Hspec (length vout) 0%nat nLast nNonzero ltac:(lia) Hnz).
  change (Z.of_nat 0) with 0 in *. rewrite H1, Hspec.
  rewrite List.seq_app, List.filter_app.
  rewrite (filter_unused_beyond vout k) by lia.
  now rewrite List.app_nil_r.
Qed.

Lemma used_bytes_bound vout b :
  In b (used_bytes IsNull vout) -> (b < length vout)%nat.
Proof.
  unfold used_bytes. intros Hin. apply List.filter_In in Hin.
  destruct Hin as [Hin _]. apply List.in_seq in Hin. lia.
Qed.

Lemma byteCount_bound vout : (byteCount IsNull vout <= length vout)%nat.
Proof.
  unfold byteCount. destruct (last (used_bytes IsNull vout)) as [b|] eqn:El; [|lia].
  apply last_Some_elem_of in El. apply list_elem_of_In in El.
  apply used_bytes_bound in El. lia.
Qed.

Lemma nonZeroByteCount_bound vout :
  (nonZeroByteCount IsNull vout <= length vout)%nat.
Proof.
  unfold nonZeroByteCount, used_bytes.
  etransitivity; [apply List.filter_length_le|]. now rewrite List.length_seq.
Qed.

(** C9.  For an entry whose output vector is short enough for the
    [unsigned int] counters, [CalcMaskSize] adds to the two counters it is
    handed, modulo [2^32], the byte count and the used-byte count of the
    bitmask: outputs 0 and 1 are left out, byte [b] covers the outputs
    [2+8b .. 2+8b+7] and is used when one of them is not null, the byte
    count is the index of the last used byte plus one (0 without used
    bytes), and the used-byte count is the number of used bytes.  Started
    from counters at zero, it yields exactly these two numbers.  It is a
    function of the entry and the counters, and returns no entry. *)
Theorem CalcMaskSize_spec c nBytes nNonzeroBytes :
  Z.of_nat (length (CCoins.vout c)) + 8 <= 2 ^ 32 ->
  0 <= nNonzeroBytes < 2 ^ 32 ->
  CalcMaskSize IsNull c nBytes nNonzeroBytes
  = (wrap32 (nBytes + Z.of_nat (byteCount IsNull (CCoins.vout c))),
     wrap32 (nNonzeroBytes
             + Z.of_nat (nonZeroByteCount IsNull (CCoins.vout c)))) /\
  CalcMaskSize IsNull c 0 0
  = (Z.of_nat (byteCount IsNull (CCoins.vout c)),
     Z.of_nat (nonZeroByteCount IsNull (CCoins.vout c))).
Proof.
  intros Hlen Hnz.
  assert (Hgen : forall nB nN, 0 <= nN < 2 ^ 32 ->
    CalcMaskSize IsNull c nB nN
    = (wrap32 (nB + Z.of_nat (byteCount IsNull (CCoins.vout c))),
       wrap32 (nN + Z.of_nat (nonZeroByteCount IsNull (CCoins.vout c))))).
  { intros nB nN HnN. unfold CalcMaskSize.
    pose proof (mask_bytes_spec (CCoins.vout c) Hlen
                  (length (CCoins.vout c)) 0%nat 0 nN ltac:(lia) HnN) as H.
    change (Z.of_nat 0) with 0 in H. rewrite H.
    unfold byteCount, nonZeroByteCount, used_bytes.
    now destruct (last (List.filter (byte_used IsNull (CCoins.vout c))
                          (seq 0 (length (CCoins.vout c))))). }
  split; [now apply Hgen|].
  rewrite Hgen by lia. cbn [Z.add].
  pose proof (byteCount_bound (CCoins.vout c)).
  pose proof (nonZeroByteCount_bound (CCoins.vout c)).
  rewrite !wrap32_small by lia. reflexivity.
Qed.

End CoinEntryFacts.

Lemma Spend_spec_witness :
  (fst (fst (Spend demo_IsNull demo_SetNull demo_coins
               (COutPoint.mk 0 1) blank_undo)) = true /\
   fst (fst (Spend demo_IsNull demo_SetNull demo_coins
               (COutPoint.mk 0 0) blank_undo)) = false) /\
  (exists o,
     CCoins.vout demo_coins !! 1%nat = Some o /\ demo_IsNull o = false /\
     CTxInUndo.txout (snd (Spend demo_IsNull demo_SetNull demo_coins
                             (COutPoint.mk 0 1) blank_undo)) = o /\
     CCoins.vout (snd (fst (Spend demo_IsNull demo_SetNull demo_coins
                              (COutPoint.mk 0 1) blank_undo)))
     = trim_nulls demo_IsNull (<[1%nat := demo_SetNull o]> (CCoins.vout demo_coins)) /\
     CCoins.fCoinBase (snd (fst (Spend demo_IsNull demo_SetNull demo_coins
                                   (COutPoint.mk 0 1) blank_undo)))
     = CCoins.fCoinBase demo_coins /\
     CCoins.nHeight (snd (fst (Spend demo_IsNull demo_SetNull demo_coins
                                 (COutPoint.mk 0 1) blank_undo)))
     = CCoins.nHeight demo_coins /\
     CCoins.nVersion (snd (fst (Spend demo_IsNull demo_SetNull demo_coins
                                  (COutPoint.mk 0 1) blank_undo)))
     = CCoins.nVersion demo_coins /\
     (CCoins.vout (snd (fst (Spend demo_IsNull demo_SetNull demo_coins
                               (COutPoint.mk 0 1) blank_undo))) = [] ->
      CTxInUndo.nVersion (snd (Spend demo_IsNull demo_SetNull demo_coins
                                 (COutPoint.mk 0 1) blank_undo))
      = CCoins.nVersion demo_coins /\
      CTxInUndo.fCoinBase (snd (Spend demo_IsNull demo_SetNull demo_coins
                                  (COutPoint.mk 0 1) blank_undo))
      = CCoins.fCoinBase demo_coins /\
      CTxInUndo.nHeight (snd (Spend demo_IsNull demo_SetNull demo_coins
                                (COutPoint.mk 0 1) blank_undo))
      = CCoins.nHeight demo_coins)) /\
  (snd (fst (Spend demo_IsNull demo_SetNull demo_coins
               (COutPoint.mk 0 0) blank_undo)) = demo_coins /\
   snd (Spend demo_IsNull demo_SetNull demo_coins
          (COutPoint.mk 0 0) blank_undo) = blank_undo).
Proof.
  split; [split; reflexivity|]. split.
  - pose proof (Spend_spec demo_IsNull demo_SetNull demo_coins
                  (COutPoint.mk 0 1) blank_undo) as H.
    cbv zeta in H. destruct H as (_ & _ & H). apply H. reflexivity.
  - pose proof (Spend_spec demo_IsNull demo_SetNull demo_coins
                  (COutPoint.mk 0 0) blank_undo) as H.
    cbv zeta in H. destruct H as (_ & H & _). apply H. reflexivity.
Defined.

(** Spending the last live output empties the entry, and the undo record
    then carries version 2, the coinbase flag and height 120. *)
Example Spend_last_output :
  Spend demo_IsNull demo_SetNull demo_coins (COutPoint.mk 0 1) blank_undo
  = (true, CCoins.mk true [] 120 2, CTxInUndo.mk (live_out 50) true 120 2).
Proof. reflexivity. Qed.

Lemma CalcMaskSize_spec_witness :
  (Z.of_nat (length (CCoins.vout demo_mask_coins)) + 8 <= 2 ^ 32 /\
   0 <= 3 < 2 ^ 32) /\
  CalcMaskSize demo_IsNull demo_mask_coins 4 3 = (6, 4) /\
  CalcMaskSize demo_IsNull demo_mask_coins 0 0 = (2, 1).
Proof.
  split; [vm_compute; intuition discriminate|].
  apply (CalcMaskSize_spec demo_IsNull demo_mask_coins 4 3).
  - vm_compute. discriminate.
  - lia.
Defined.

(* --------------------------------------------------------------------- *)
(** ** Block structural validator                                         *)
(* --------------------------------------------------------------------- *)

Lemma size_list_to_set_le (l : list Z) :
  (size (list_to_set l : gset Z) <= length l)%nat.
Proof.
  induction l as [|x l IH]; [now rewrite list_to_set_nil, size_empty|].
  rewrite list_to_set_cons. cbn [length].
  rewrite size_union_alt, size_singleton.
  assert (size (list_to_set l ∖ ({[x]} : gset Z)) <= size (list_to_set l : gset Z))%nat
    by (apply subseteq_size; set_solver).
  lia.
Qed.

(** A set built from a list is as large as the list only if the list
    has no repetition. *)
Lemma size_list_to_set_NoDup (l : list Z) :
  size (list_to_set l : gset Z) = length l -> NoDup l.
Proof.
  induction l as [|x l IH]; intros Hsize; [constructor|].
  rewrite list_to_set_cons in Hsize. cbn [length] in Hsize.
  pose proof (size_list_to_set_le l) as Hle.
  destruct (decide (x ∈ l)) as [Hin|Hnin].
  - replace ({[x]} ∪ list_to_set l : gset Z) with (list_to_set l : gset Z)
      in Hsize by set_solver.
    lia.
  - rewrite size_union in Hsize by set_solver.
    rewrite size_singleton in Hsize.
    constructor; [exact Hnin|]. apply IH. lia.
Qed.

Lemma fold_insert_list_to_set {A} (f : A -> Z) (l : list A) : forall acc : gset Z,
  fold_left (fun set i => {[f i]} ∪ set) l acc = list_to_set (map f l) ∪ acc.
Proof.
  induction l as [|x l IH]; intros acc; cbn [fold_left map].
  - rewrite list_to_set_nil. set_solver.
  - rewrite IH, list_to_set_cons. set_solver.
Qed.

Lemma map_vec_at_prefix (l : list uint256) : forall rest,
  map (fun i => vec_at (l ++ rest) (Z.of_nat i)) (seq 0 (length l)) = l.
Proof.
  induction l as [|x l IH] using rev_ind; intros rest; [reflexivity|].
  rewrite List.length_app. cbn [length]. rewrite Nat.add_1_r, List.seq_S.
  rewrite List.map_app. cbn [map Nat.add]. rewrite <- List.app_assoc.
  cbn [app]. rewrite IH, vec_at_middle. reflexivity.
Qed.

Section CheckBlockFacts.

Context {CTransaction CAuxPow CValidationState : Type}.
Context (TxGetHash : CTransaction -> uint256).
Context (Hash : uint256 -> uint256 -> uint256).
Context (SetCompact : Z -> Z) (ProofOfWorkLimit : Z).
Context (getuint256 : Z -> uint256).
Context (HashSkein : Z -> uint256 -> uint256 -> Z -> Z -> Z -> uint256).
Context (DoS : Z -> CValidationState -> CValidationState).
Context (MAX_BLOCK_SIZE MAX_BLOCK_SIGOPS : Z).
Context (GetSerializeSize : CBlock CTransaction CAuxPow -> Z).
Context (GetAdjustedTime : Z).
Context (IsCoinBase : CTransaction -> bool).
Context (CheckTransaction :
           CTransaction -> CValidationState -> bool * CValidationState).
Context (GetLegacySigOpCount : CTransaction -> Z).

Local Abbreviation base_check :=
  (CheckProofOfWork SetCompact ProofOfWorkLimit getuint256).
Local Abbreviation check_block :=
  (CheckBlock TxGetHash Hash SetCompact ProofOfWorkLimit getuint256 HashSkein
     DoS MAX_BLOCK_SIZE MAX_BLOCK_SIGOPS GetSerializeSize GetAdjustedTime
     IsCoinBase CheckTransaction GetLegacySigOpCount).
Local Abbreviation build := (BuildMerkleTree TxGetHash Hash).

Implicit Types (b : CBlock CTransaction CAuxPow) (state : CValidationState).

Lemma CheckProofOfWork_log hash nBits :
  fst (base_check hash nBits) = true -> snd (base_check hash nBits) = [].
Proof.
  unfold CheckProofOfWork.
  destruct (_ || _); [discriminate|].
  destruct (_ <? _); [discriminate|reflexivity].
Qed.

Lemma tree_of_prefix fuel (level : list uint256) :
  exists rest, tree_of Hash fuel level = level ++ rest.
Proof.
  destruct fuel as [|fuel]; cbn [tree_of].
  - exists []. now rewrite List.app_nil_r.
  - destruct (1 <? Z.of_nat (length level)); [eauto|].
    exists []. now rewrite List.app_nil_r.
Qed.

(** After [BuildMerkleTree], the set [uniqueTx] is the set of the
    transaction hashes. *)
Lemma uniqueTx_built b :
  uniqueTx (snd (build b)) = list_to_set (map TxGetHash (vtx b)).
Proof.
  unfold uniqueTx. rewrite fold_insert_list_to_set.
  rewrite BuildMerkleTree_eq. cbn [snd vtx set_vMerkleTree].
  unfold GetTxHash. cbn [vMerkleTree set_vMerkleTree].
  destruct (tree_of_prefix (length (map TxGetHash (vtx b)))
              (map TxGetHash (vtx b))) as [rest ->].
  replace (length (vtx b)) with (length (map TxGetHash (vtx b)))
    by apply List.length_map.
  rewrite map_vec_at_prefix. set_solver.
Qed.

(** Two transactions with one hash make the set smaller than the list. *)
Lemma duplicate_shrinks_uniqueTx b (i j : nat) (txi txj : CTransaction) :
  i <> j -> vtx b !! i = Some txi -> vtx b !! j = Some txj ->
  TxGetHash txi = TxGetHash txj ->
  (Z.of_nat (size (uniqueTx (snd (build b))))
   =? Z.of_nat (length (vtx (snd (build b))))) = false.
Proof.
  intros Hij Hi Hj Hsame. apply Z.eqb_neq. intros Heq.
  rewrite uniqueTx_built in Heq.
  assert (Hvtx : vtx (snd (build b)) = vtx b) by reflexivity.
  rewrite Hvtx in Heq. apply Nat2Z.inj in Heq.
  rewrite <- (List.length_map TxGetHash) in Heq.
  apply size_list_to_set_NoDup in Heq.
  apply Hij. eapply (NoDup_lookup _ i j (TxGetHash txi) Heq).
  - change (map TxGetHash (vtx b)) with (TxGetHash <$> vtx b).
    now rewrite list_lookup_fmap, Hi.
  - change (map TxGetHash (vtx b)) with (TxGetHash <$> vtx b).
    now rewrite list_lookup_fmap, Hj, Hsame.
Qed.

(** C4, as amended.  A block in which two transactions have the same
    hash is never accepted by [CheckBlock]; and when such a block passes
    the checks that come first (size limits, proof of work, timestamp,
    coinbase placement, per-transaction checks), it is rejected through
    [DoS(100)] with the message of the duplicate check, whatever the
    header's Merkle root is. *)
Theorem duplicate_tx_rejected b nHeight state
  (i j : nat) (txi txj : CTransaction) :
  i <> j -> vtx b !! i = Some txi -> vtx b !! j = Some txj ->
  TxGetHash txi = TxGetHash txj ->
  accepted (check_block b nHeight state) = false /\
  forall state1,
    Z.of_nat (length (vtx b)) <= MAX_BLOCK_SIZE ->
    GetSerializeSize b <= MAX_BLOCK_SIZE ->
    fst (base_check (GetHash CAuxPow HashSkein (header b)) (nBits (header b)))
    = true ->
    nTime (header b) <= GetAdjustedTime + 2 * 60 * 60 ->
    IsCoinBase <$> head (vtx b) = Some true ->
    existsb IsCoinBase (drop 1 (vtx b)) = false ->
    CheckTransactions CheckTransaction (vtx b) state = (true, state1) ->
    check_block b nHeight state
    = reject_DoS DoS 100 state1
        ["CheckBlock() : duplicate transaction"%string] (snd (build b)).
Proof.
  intros Hij Hi Hj Hsame.
  pose proof (duplicate_shrinks_uniqueTx b i j txi txj Hij Hi Hj Hsame) as Hdup.
  split.
  - unfold CheckBlock.
    destruct (_ || _); [reflexivity|].
    destruct (negb (fst (base_check _ _))); [reflexivity|].
    destruct (_ <? _); [reflexivity|].
    destruct (match vtx b with [] => true | tx0 :: _ => negb (IsCoinBase tx0) end);
      [reflexivity|].
    destruct (existsb IsCoinBase (drop 1 (vtx b))); [reflexivity|].
    destruct (CheckTransactions CheckTransaction (vtx b) state) as [ok st].
    destruct ok; [|reflexivity]. cbn [negb].
    rewrite Hdup. reflexivity.
  - intros state1 Hn Hsz Hpow Htime Hcb Hone Htxs.
    assert (Hlen : (i < length (vtx b))%nat) by (eapply lookup_lt_Some; eauto).
    unfold CheckBlock.
    destruct (Z.eqb_spec (Z.of_nat (length (vtx b))) 0) as [|_]; [lia|].
    destruct (Z.ltb_spec MAX_BLOCK_SIZE (Z.of_nat (length (vtx b)))); [lia|].
    destruct (Z.ltb_spec MAX_BLOCK_SIZE (GetSerializeSize b)); [lia|].
    cbn [orb]. rewrite Hpow, (CheckProofOfWork_log _ _ Hpow). cbn [negb].
    destruct (Z.ltb_spec (GetAdjustedTime + 2 * 60 * 60) (nTime (header b)));
      [lia|].
    destruct (vtx b) as [|tx0 rest] eqn:Evtx; [discriminate|].
    cbn [head fmap option_fmap option_map] in Hcb. injection Hcb as ->.
    cbn [negb]. rewrite Hone, Htxs. cbn [negb].
    rewrite <- Evtx in *. rewrite Hdup. reflexivity.
Qed.

End CheckBlockFacts.

(** The weakness that the duplicate check closes: repeating the last
    transaction of an odd list does not change the root. *)
Lemma merkle_root_of_repeated_last :
  demo_root [tx_A; tx_B; tx_C; tx_C] = demo_root [tx_A; tx_B; tx_C].
Proof. reflexivity. Qed.

Lemma duplicate_tx_rejected_witness :
  (2%nat <> 3%nat /\ vtx dup_block !! 2%nat = Some tx_C /\
   vtx dup_block !! 3%nat = Some tx_C /\
   hashMerkleRoot (header dup_block) = demo_root (vtx dup_block)) /\
  accepted (demo_check_block dup_block 0 0) = false /\
  demo_check_block dup_block 0 0
  = reject_DoS demo_DoS 100 0
      ["CheckBlock() : duplicate transaction"%string]
      (snd (BuildMerkleTree demo_tx_hash demo_hash dup_block)).
Proof.
  split; [repeat split; lia|].
  destruct (duplicate_tx_rejected demo_tx_hash demo_hash demo_SetCompact
              demo_limit demo_getuint256 demo_HashSkein demo_DoS 1000000 20000
              demo_serialize_size 1000 demo_is_coinbase demo_check_tx
              demo_sigops dup_block 0 0 2%nat 3%nat tx_C tx_C)
    as [Hrej Hdos]; [lia|reflexivity|reflexivity|reflexivity|].
  split; [exact Hrej|].
  apply Hdos; try reflexivity; vm_compute; discriminate.
Defined.

(** C4 as stated fails: a block with a repeated transaction whose target
    no hash meets is rejected with penalty 50, and one whose timestamp is
    too far ahead is rejected with no penalty at all. *)
Lemma duplicate_tx_other_penalty :
  vtx dup_block_bad_pow !! 2%nat = Some tx_C /\
  vtx dup_block_bad_pow !! 3%nat = Some tx_C /\
  demo_check_block dup_block_bad_pow 0 0
  = reject_DoS demo_DoS 50 0
      ["CheckProofOfWork() : nBits below minimum work"%string;
       "CheckBlock() : proof of work failed"%string] dup_block_bad_pow /\
  state_after (demo_check_block dup_block_bad_pow 0 0) = 50 /\
  vtx dup_block_late !! 2%nat = Some tx_C /\
  vtx dup_block_late !! 3%nat = Some tx_C /\
  accepted (demo_check_block dup_block_late 0 0) = false /\
  state_after (demo_check_block dup_block_late 0 0) = 0.
Proof. repeat split; reflexivity. Qed.

(* ===================================================================== *)
(** * Part III: further properties of the code                            *)
(* ===================================================================== *)

(* --------------------------------------------------------------------- *)
(** ** Amount codec                                                       *)
(* --------------------------------------------------------------------- *)

Lemma u64_bind_pure {A B} (a : A) (k : A -> U64 B) :
  u64_bind (a, true) k = k a.
Proof. unfold u64_bind. now destruct (k a). Qed.

Lemma scale_up_flag k : forall n,
  0 <= n < two64 -> snd (scale_up k n) = true ->
  n * 10 ^ Z.of_nat k < two64 /\ fst (scale_up k n) = n * 10 ^ Z.of_nat k.
Proof.
  induction k as [|k IH]; intros n Hn Hflag.
  - cbn [scale_up u64_ret fst]. change (Z.of_nat 0) with 0.
    rewrite Z.pow_0_r, Z.mul_1_r. split; [lia|reflexivity].
  - cbn [scale_up] in *. unfold mul64 in *.
    u64_flag Hflag. rewrite u64_bind_exact by exact Hb.
    destruct (IH (n * 10) Hb Hflag) as [Hfit Hval].
    rewrite Nat2Z.inj_succ, Z.pow_succ_r by lia.
    split; [lia|]. rewrite Hval. lia.
Qed.

(** Stripping the zeros of [m * 10^k] gives back [m] and [k], when [m]
    has no trailing zero or the cap of nine zeros is reached. *)
Lemma strip_zeros_pow m : forall (k fuel : nat) e0,
  0 < m -> 0 <= e0 -> e0 + Z.of_nat k <= 9 -> (k <= fuel)%nat ->
  (e0 + Z.of_nat k < 9 -> m mod 10 <> 0 /\ (k < fuel)%nat) ->
  strip_zeros fuel (m * 10 ^ Z.of_nat k) e0 = (m, e0 + Z.of_nat k).
Proof.
  induction k as [|k IH]; intros fuel e0 Hm He0 Hcap Hfuel Hlast.
  - change (Z.of_nat 0) with 0. rewrite Z.pow_0_r, Z.mul_1_r, Z.add_0_r.
    destruct fuel as [|fuel]; [reflexivity|]. cbn [strip_zeros].
    destruct (Z.ltb_spec e0 9) as [Hlt|Hge].
    + destruct (Hlast ltac:(lia)) as [Hmod _].
      destruct (Z.eqb_spec (m mod 10) 0); [contradiction|reflexivity].
    + now rewrite andb_false_r.
  - destruct fuel as [|fuel]; [lia|]. cbn [strip_zeros].
    rewrite Nat2Z.inj_succ, Z.pow_succ_r by lia.
    replace (m * (10 * 10 ^ Z.of_nat k)) with (m * 10 ^ Z.of_nat k * 10) by lia.
    rewrite Z.mod_mul, Z.div_mul by lia.
    destruct (Z.ltb_spec e0 9) as [_|]; [|lia]. cbn [Z.eqb andb].
    rewrite IH; [f_equal; lia|lia|lia|lia|lia|].
    intros Hlt. destruct (Hlast ltac:(lia)) as [Hmod Hk]. split; [exact Hmod|lia].
Qed.

(** X1.  Decoding then encoding is the identity as well: for every
    64-bit code word whose decompression does not wrap,
    [CompressAmount (DecompressAmount c)] is [c], and the compression
    does not wrap. *)
Theorem compress_decompress c :
  0 <= c < two64 -> snd (DecompressAmount c) = true ->
  CompressAmount (fst (DecompressAmount c)) = (c, true).
Proof.
  intros Hc Hflag. unfold DecompressAmount in *.
  destruct (Z.eqb_spec c 0) as [->|Hne]; [reflexivity|].
  unfold sub64 in *. rewrite u64_bind_exact in * by (unfold two64 in *; lia).
  pose proof (Z.div_mod (c - 1) 10 ltac:(lia)) as Hdm.
  pose proof (Z.mod_pos_bound (c - 1) 10 ltac:(lia)) as He.
  set (e := (c - 1) mod 10) in *. set (q := (c - 1) / 10) in *.
  assert (Hq : 0 <= q) by (apply Z.div_pos; lia).
  destruct (Z.ltb_spec e 9) as [Hlt|Hge].
  - pose proof (Z.div_mod q 9 ltac:(lia)) as Hdq.
    pose proof (Z.mod_pos_bound q 9 ltac:(lia)) as Hd.
    assert (Hn : 0 <= q / 9) by (apply Z.div_pos; lia).
    unfold mul64, add64 in *.
    apply u64_bind_flag in Hflag. destruct Hflag as [Hm Hs].
    u64_flag Hm. apply u64_op_flag in Hm.
    rewrite (u64_bind_exact (q / 9 * 10)) in * by exact Hb.
    rewrite u64_op_exact in * by exact Hm. cbn [fst] in Hs.
    rewrite u64_bind_pure.
    set (m := q / 9 * 10 + (q mod 9 + 1)) in *.
    destruct (scale_up_flag (Z.to_nat e) m Hm Hs) as [Hfit Hval].
    rewrite Hval. rewrite Z2Nat.id in * by lia.
    assert (Hm10 : m mod 10 = q mod 9 + 1 /\ m / 10 = q / 9).
    { unfold m. destruct (div_mod_lin (q / 9) 10 (q mod 9 + 1) ltac:(lia)).
      split; assumption. }
    destruct Hm10 as [Hmm Hmd].
    assert (Hstrip : strip_zeros 9 (m * 10 ^ e) 0 = (m, e)).
    { pose proof (strip_zeros_pow m (Z.to_nat e) 9 0) as H.
      rewrite Z2Nat.id in H by lia. apply H; try lia. }
    assert (Hcw : code_word m e = c).
    { unfold code_word. destruct (Z.ltb_spec e 9); [|lia].
      rewrite Hmm, Hmd. lia. }
    transitivity (code_word m e, true); [|now rewrite Hcw].
    apply CompressAmount_fits; [|exact Hstrip|rewrite Hcw; lia].
    assert (0 < 10 ^ e) by (apply Z.pow_pos_nonneg; lia). nia.
  - assert (e = 9) as He9 by lia.
    unfold add64 in *.
    apply u64_bind_flag in Hflag. destruct Hflag as [Hm Hs].
    apply u64_op_flag in Hm.
    rewrite u64_op_exact in * by exact Hm. cbn [fst] in Hs.
    rewrite u64_bind_pure.
    destruct (scale_up_flag (Z.to_nat e) (q + 1) Hm Hs) as [Hfit Hval].
    rewrite Hval. rewrite Z2Nat.id in * by lia.
    assert (Hstrip : strip_zeros 9 ((q + 1) * 10 ^ e) 0 = (q + 1, e)).
    { pose proof (strip_zeros_pow (q + 1) (Z.to_nat e) 9 0) as H.
      rewrite Z2Nat.id in H by lia. apply H; try lia. }
    assert (Hcw : code_word (q + 1) e = c).
    { unfold code_word. destruct (Z.ltb_spec e 9); lia. }
    transitivity (code_word (q + 1) e, true); [|now rewrite Hcw].
    apply CompressAmount_fits; [|exact Hstrip|rewrite Hcw; lia].
    assert (0 < 10 ^ e) by (apply Z.pow_pos_nonneg; lia). nia.
Qed.

Lemma compress_decompress_witness :
  (0 <= 1350000009 < two64 /\ snd (DecompressAmount 1350000009) = true) /\
  CompressAmount (fst (DecompressAmount 1350000009)) = (1350000009, true).
Proof.
  split; [split; [unfold two64; lia | reflexivity]|].
  apply compress_decompress; [unfold two64; lia | reflexivity].
Defined.

(** X2.  [CompressAmount] never maps two amounts to one code word, as
    long as neither compression wraps. *)
Theorem CompressAmount_injective x y :
  0 <= x < two64 -> 0 <= y < two64 ->
  snd (CompressAmount x) = true -> snd (CompressAmount y) = true ->
  fst (CompressAmount x) = fst (CompressAmount y) -> x = y.
Proof.
  intros Hx Hy Hfx Hfy Heq.
  assert (Hback : forall z, 0 < z < two64 -> snd (CompressAmount z) = true ->
            0 < fst (CompressAmount z) /\
            DecompressAmount (fst (CompressAmount z)) = (z, true)).
  { intros z Hz Hfz. destruct (strip_zeros 9 z 0) as [m e] eqn:Hs.
    pose proof (CompressAmount_flag z m e (proj1 Hz) Hs Hfz) as Hfit.
    rewrite (CompressAmount_fits z m e (proj1 Hz) Hs Hfit). cbn [fst].
    split; [apply (code_word_bound z m e (proj1 Hz) Hs)|].
    now apply DecompressAmount_code_word. }
  destruct (Z.eq_dec x 0) as [->|Hx0], (Z.eq_dec y 0) as [->|Hy0].
  - reflexivity.
  - destruct (Hback y ltac:(lia) Hfy) as [Hpos _].
    change (fst (CompressAmount 0)) with 0 in Heq. lia.
  - destruct (Hback x ltac:(lia) Hfx) as [Hpos _].
    change (fst (CompressAmount 0)) with 0 in Heq. lia.
  - destruct (Hback x ltac:(lia) Hfx) as [_ Hdx].
    destruct (Hback y ltac:(lia) Hfy) as [_ Hdy].
    rewrite Heq, Hdy in Hdx. congruence.
Qed.

Lemma CompressAmount_injective_witness :
  (0 <= 5000000000 < two64 /\ 0 <= 5000000000 < two64 /\
   snd (CompressAmount 5000000000) = true /\
   fst (CompressAmount 5000000000) = fst (CompressAmount 5000000000)) /\
  5000000000 = 5000000000.
Proof.
  split; [unfold two64; repeat split; lia|].
  apply CompressAmount_injective; try reflexivity; unfold two64; lia.
Defined.

Lemma pow10_dominates e : 1 <= e <= 9 -> 9 + e <= 10 ^ e.
Proof.
  intros He.
  assert (e = 1 \/ e = 2 \/ e = 3 \/ e = 4 \/ e = 5 \/ e = 6 \/ e = 7
          \/ e = 8 \/ e = 9) as Hcases by lia.
  repeat (destruct Hcases as [->|Hcases]; [vm_compute; discriminate|]).
  subst e. vm_compute. discriminate.
Qed.

(** X3.  A compression that does not wrap yields a code word that is zero
    for the amount zero only, is at most nine times the amount, and is no
    larger than the amount itself when the amount is a multiple of ten. *)
Theorem CompressAmount_size x :
  0 <= x < two64 -> snd (CompressAmount x) = true ->
  (fst (CompressAmount x) = 0 <-> x = 0) /\
  fst (CompressAmount x) <= 9 * x /\
  (x mod 10 = 0 -> fst (CompressAmount x) <= x).
Proof.
  intros Hx Hflag.
  destruct (Z.eq_dec x 0) as [->|Hne].
  { change (fst (CompressAmount 0)) with 0. repeat split; lia. }
  destruct (strip_zeros 9 x 0) as [m e] eqn:Hs.
  pose proof (CompressAmount_flag x m e ltac:(lia) Hs Hflag) as Hfit.
  rewrite (CompressAmount_fits x m e ltac:(lia) Hs Hfit). cbn [fst].
  pose proof (code_word_bound x m e ltac:(lia) Hs) as Hb.
  split; [lia|]. split; [lia|]. intros Hmod.
  pose proof (strip_zeros_9 x m e ltac:(lia) Hs) as (He & Hm & Heq & Hlast).
  assert (He1 : 1 <= e).
  { destruct (Z.eq_dec e 0) as [->|]; [|lia].
    rewrite Z.pow_0_r, Z.mul_1_r in Heq. subst m.
    specialize (Hlast ltac:(lia)). contradiction. }
  pose proof (pow10_dominates e ltac:(lia)) as Hpow.
  unfold code_word. destruct (Z.ltb_spec e 9) as [Hlt|Hge].
  - pose proof (Z.mod_pos_bound m 10 ltac:(lia)).
    pose proof (Z.div_mod m 10 ltac:(lia)). nia.
  - nia.
Qed.

Lemma CompressAmount_size_witness :
  (0 <= 5000000000 < two64 /\ snd (CompressAmount 5000000000) = true /\
   5000000000 mod 10 = 0) /\
  fst (CompressAmount 5000000000) <= 9 * 5000000000 /\
  fst (CompressAmount 5000000000) <= 5000000000.
Proof.
  split; [unfold two64; repeat split; lia|].
  destruct (CompressAmount_size 5000000000) as (_ & H9 & H1);
    [unfold two64; lia | reflexivity |].
  split; [exact H9 | apply H1; reflexivity].
Defined.

(* --------------------------------------------------------------------- *)
(** ** [CTransaction::IsNewerThan]                                        *)
(* --------------------------------------------------------------------- *)

Lemma outpoint_neq_false (a b : COutPoint) :
  outpoint_neq a b = false <-> a = b.
Proof.
  unfold outpoint_neq. destruct a as [ha na], b as [hb nb]. cbn.
  rewrite negb_false_iff, andb_true_iff, Z.eqb_eq, Nat.eqb_eq.
  split; [intros [-> ->]; reflexivity | intros [= -> ->]; auto].
Qed.

Lemma zip_drop_lookup (vin old_vin : list CTxIn) i a b :
  vin !! i = Some a -> old_vin !! i = Some b ->
  drop i (zip vin old_vin) = (a, b) :: drop (S i) (zip vin old_vin).
Proof.
  intros Ha Hb. apply drop_S.
  rewrite lookup_zip_with, Ha. cbn. rewrite Hb. reflexivity.
Qed.

(** The first loop returns exactly when some position holds two
    different outpoints. *)
Lemma prevouts_differ_spec vin old_vin : forall fuel i,
  length vin = length old_vin -> (length vin - i <= fuel)%nat ->
  prevouts_differ fuel vin old_vin i
  = existsb (fun p => outpoint_neq (prevout (fst p)) (prevout (snd p)))
      (drop i (zip vin old_vin)).
Proof.
  intros fuel. induction fuel as [|fuel IH]; intros i Hlen Hfuel.
  - rewrite drop_ge by (rewrite length_zip; lia). reflexivity.
  - cbn [prevouts_differ].
    destruct (Nat.ltb_spec i (length vin)) as [Hi|Hi].
    + destruct (lookup_lt_is_Some_2 vin i Hi) as [a Ha].
      destruct (lookup_lt_is_Some_2 old_vin i ltac:(lia)) as [b Hb].
      rewrite Ha, Hb, (zip_drop_lookup _ _ _ _ _ Ha Hb). cbn [existsb fst snd].
      destruct (outpoint_neq (prevout a) (prevout b)); [reflexivity|].
      apply IH; lia.
    + rewrite drop_ge by (rewrite length_zip; lia). reflexivity.
Qed.

(** The second loop is a fold of [newer_step] over the pairs of inputs. *)
Lemma newer_scan_fold vin old_vin : forall fuel i fNewer nLowest,
  length vin = length old_vin -> (length vin - i <= fuel)%nat ->
  newer_scan fuel vin old_vin i fNewer nLowest
  = fst (fold_left newer_step (drop i (zip vin old_vin)) (fNewer, nLowest)).
Proof.
  intros fuel. induction fuel as [|fuel IH]; intros i fN L Hlen Hfuel.
  - rewrite drop_ge by (rewrite length_zip; lia). reflexivity.
  - cbn [newer_scan].
    destruct (Nat.ltb_spec i (length vin)) as [Hi|Hi].
    + destruct (lookup_lt_is_Some_2 vin i Hi) as [a Ha].
      destruct (lookup_lt_is_Some_2 old_vin i ltac:(lia)) as [b Hb].
      rewrite Ha, Hb, (zip_drop_lookup _ _ _ _ _ Ha Hb).
      cbn [fold_left newer_step].
      destruct (negb (nSequence a =? nSequence b)); [|apply IH; lia].
      destruct (nSequence a <=? L);
        (destruct (nSequence b <? _); apply IH; lia).
    + rewrite drop_ge by (rewrite length_zip; lia). reflexivity.
Qed.

Lemma seq_differs_snoc ps p a b :
  seq_differs (ps ++ [p]) a b
  <-> seq_differs ps a b \/ (p = (a, b) /\ nSequence a <> nSequence b).
Proof.
  unfold seq_differs. rewrite elem_of_app, list_elem_of_singleton.
  naive_solver.
Qed.

Lemma scan_inv_step ps fNewer nLowest a b :
  scan_inv ps fNewer nLowest -> nSequence a <= UINT_MAX ->
  scan_inv (ps ++ [(a, b)])
    (fst (newer_step (fNewer, nLowest) (a, b)))
    (snd (newer_step (fNewer, nLowest) (a, b))).
Proof.
  intros (Hlow & Hset & Hclear) Hrange. unfold newer_step.
  destruct (Z.eqb_spec (nSequence a) (nSequence b)) as [Heq|Hne]; cbn [negb].
  - cbn [fst snd]. unfold scan_inv.
    setoid_rewrite seq_differs_snoc. split; [|split].
    + intros x y [Hd|[[= <- <-] Hd]]; [now apply Hlow|contradiction].
    + intros Hf. destruct (Hset Hf) as [(x & y & Hd & Hy) Hall]. split.
      * exists x, y. auto.
      * intros x' y' [Hd'|[[= <- <-] Hd']]; [exact (Hall x' y' Hd')|contradiction].
    + intros Hf. destruct (Hclear Hf) as [[HL Hnone]|(x & y & Hd & Hx)].
      * left. split; [exact HL|]. intros x y [Hd|[[= <- <-] Hd]];
          [now apply (Hnone x y)|contradiction].
      * right. exists x, y. auto.
  - assert (Hlow' : forall L', L' <= nLowest -> L' <= nSequence a ->
              L' <= nSequence b ->
              forall x y,
                seq_differs ps x y \/
                ((a, b) = (x, y) /\ nSequence x <> nSequence y) ->
                L' <= nSequence x /\ L' <= nSequence y).
    { intros L' H1 H2 H3 x y [Hd|[[= <- <-] _]]; [apply Hlow in Hd|]; lia. }
    assert (Hnew : seq_differs ps a b \/
                   ((a, b) = (a, b) /\ nSequence a <> nSequence b))
      by (right; auto).
    destruct (Z.leb_spec (nSequence a) nLowest) as [Hle|Hgt].
    + destruct (Z.ltb_spec (nSequence b) (nSequence a)) as [Hlt|Hge];
        cbn [fst snd]; unfold scan_inv; setoid_rewrite seq_differs_snoc;
        (split; [apply Hlow'; lia|split]); try discriminate.
      * intros _. split; [exists a, b; auto|].
        intros x y [Hd|[[= <- <-] _]]; [apply Hlow in Hd|]; lia.
      * intros _. right. exists a, b. auto.
    + destruct (Z.ltb_spec (nSequence b) nLowest) as [Hlt|Hge];
        cbn [fst snd]; unfold scan_inv; setoid_rewrite seq_differs_snoc;
        (split; [apply Hlow'; lia|split]); try discriminate.
      * intros _. split; [exists a, b; auto|].
        intros x y [Hd|[[= <- <-] _]]; [apply Hlow in Hd|]; lia.
      * intros Hf. destruct (Hset Hf) as [(x & y & Hd & Hy) Hall]. split.
        -- exists x, y. auto.
        -- intros x' y' [Hd'|[[= <- <-] _]]; [exact (Hall x' y' Hd')|lia].
      * intros Hf. destruct (Hclear Hf) as [[HL Hnone]|(x & y & Hd & Hx)];
          [lia|]. right. exists x, y. auto.
Qed.

Lemma scan_inv_fold ps : forall done fNewer nLowest,
  scan_inv done fNewer nLowest ->
  (forall a b, (a, b) ∈ ps -> nSequence a <= UINT_MAX) ->
  scan_inv (done ++ ps)
    (fst (fold_left newer_step ps (fNewer, nLowest)))
    (snd (fold_left newer_step ps (fNewer, nLowest))).
Proof.
  induction ps as [|[a b] ps IH]; intros done fN L Hinv Hrange.
  - now rewrite List.app_nil_r.
  - cbn [fold_left].
    pose proof (scan_inv_step done fN L a b Hinv
                  (Hrange a b ltac:(left))) as Hstep.
    destruct (newer_step (fN, L) (a, b)) as [fN' L'].
    replace (done ++ (a, b) :: ps) with ((done ++ [(a, b)]) ++ ps)
      by (now rewrite <- List.app_assoc).
    apply IH; [exact Hstep|].
    intros x y Hin. apply (Hrange x y). now right.
Qed.

Lemma scan_inv_start : scan_inv [] false UINT_MAX.
Proof.
  unfold scan_inv, seq_differs. split; [|split].
  - intros a b [Hin _]. inversion Hin.
  - discriminate.
  - intros _. left. split; [reflexivity|]. intros a b [Hin _]. inversion Hin.
Qed.

(** The verdict of the scan over the pairs [ps], read off its
    invariant. *)
Lemma newer_scan_verdict (ps : list (CTxIn * CTxIn)) :
  (forall a b, (a, b) ∈ ps -> nSequence a <= UINT_MAX) ->
  (fst (fold_left newer_step ps (false, UINT_MAX)) = true <->
   exists a b,
     seq_differs ps a b /\
     forall a' b', seq_differs ps a' b' -> nSequence b < nSequence a').
Proof.
  intros Hrange.
  pose proof (scan_inv_fold ps [] false UINT_MAX scan_inv_start Hrange)
    as Hinv.
  cbn [app] in Hinv.
  destruct (fold_left newer_step ps (false, UINT_MAX)) as [fN L].
  cbn [fst snd] in *. destruct Hinv as (Hlow & Hset & Hclear).
  split.
  - intros ->. destruct (Hset eq_refl) as [(a & b & Hd & Hb) Hall].
    exists a, b. split; [exact Hd|]. intros a' b' Hd'. rewrite Hb.
    exact (Hall a' b' Hd').
  - intros (a & b & Hd & Hall).
    destruct fN; [reflexivity|]. exfalso.
    destruct (Hclear eq_refl) as [[_ Hnone]|(x & y & Hdx & Hx)].
    + exact (Hnone a b Hd).
    + pose proof (Hall x y Hdx). pose proof (Hlow a b Hd). lia.
Qed.

(** [IsNewerThan] is the scan, guarded by the two early returns. *)
Lemma IsNewerThan_scan (vin old_vin : list CTxIn) :
  IsNewerThan vin old_vin = true <->
  length vin = length old_vin /\
  (forall a b, (a, b) ∈ zip vin old_vin -> prevout a = prevout b) /\
  fst (fold_left newer_step (zip vin old_vin) (false, UINT_MAX)) = true.
Proof.
  unfold IsNewerThan.
  destruct (Nat.eqb_spec (length vin) (length old_vin)) as [Hlen|Hlen];
    cbn [negb]; [|split; [discriminate|tauto]].
  rewrite prevouts_differ_spec by lia. rewrite drop_0.
  destruct (existsb _ (zip vin old_vin)) eqn:Hprev.
  { split; [discriminate|]. intros (_ & Hsame & _).
    apply List.existsb_exists in Hprev. destruct Hprev as ([a b] & Hin & Hneq).
    apply list_elem_of_In in Hin. cbn [fst snd] in Hneq.
    rewrite (Hsame a b Hin) in Hneq.
    assert (outpoint_neq (prevout b) (prevout b) = false)
      by now apply outpoint_neq_false.
    congruence. }
  assert (Hsame : forall a b, (a, b) ∈ zip vin old_vin -> prevout a = prevout b).
  { intros a b Hin. apply outpoint_neq_false.
    destruct (outpoint_neq (prevout a) (prevout b)) eqn:E; [|reflexivity].
    assert (existsb (fun p => outpoint_neq (prevout (fst p)) (prevout (snd p)))
              (zip vin old_vin) = true); [|congruence].
    apply List.existsb_exists. exists (a, b).
    split; [now apply list_elem_of_In|exact E]. }
  rewrite newer_scan_fold by lia. rewrite drop_0. tauto.
Qed.

(** X4.  For inputs whose sequence numbers are [unsigned int]s,
    [IsNewerThan] holds exactly when both transactions have the same
    number of inputs with the same outpoints position by position, some
    position differs in its sequence number, and the lowest sequence
    number among the differing positions is an old one, strictly below
    every differing new one. *)
Theorem IsNewerThan_spec (vin old_vin : list CTxIn) :
  (forall a, a ∈ vin -> nSequence a <= UINT_MAX) ->
  (IsNewerThan vin old_vin = true <->
   length vin = length old_vin /\
   (forall a b, (a, b) ∈ zip vin old_vin -> prevout a = prevout b) /\
   exists a b,
     seq_differs (zip vin old_vin) a b /\
     forall a' b', seq_differs (zip vin old_vin) a' b' ->
                   nSequence b < nSequence a').
Proof.
  intros Hrange.
  assert (Hpairs : forall a b, (a, b) ∈ zip vin old_vin ->
                               nSequence a <= UINT_MAX).
  { intros a b Hin. apply Hrange.
    now apply (elem_of_zip_l a b vin old_vin). }
  rewrite IsNewerThan_scan.
  rewrite (newer_scan_verdict (zip vin old_vin) Hpairs).
  reflexivity.
Qed.

Lemma IsNewerThan_spec_witness :
  (forall a, a ∈ demo_vin_new -> nSequence a <= UINT_MAX) /\
  (IsNewerThan demo_vin_new demo_vin_old = true <->
   length demo_vin_new = length demo_vin_old /\
   (forall a b, (a, b) ∈ zip demo_vin_new demo_vin_old ->
                prevout a = prevout b) /\
   exists a b,
     seq_differs (zip demo_vin_new demo_vin_old) a b /\
     forall a' b', seq_differs (zip demo_vin_new demo_vin_old) a' b' ->
                   nSequence b < nSequence a').
Proof.
  assert (Hrange : forall a, a ∈ demo_vin_new -> nSequence a <= UINT_MAX).
  { intros a Hin. unfold demo_vin_new in Hin.
    apply elem_of_cons in Hin. destruct Hin as [->|Hin]; [vm_compute; discriminate|].
    apply list_elem_of_singleton in Hin. subst a. vm_compute. discriminate. }
  split; [exact Hrange|].
  exact (IsNewerThan_spec demo_vin_new demo_vin_old Hrange).
Defined.

Example IsNewerThan_demo :
  IsNewerThan demo_vin_new demo_vin_old = true /\
  IsNewerThan demo_vin_old demo_vin_new = false.
Proof. split; reflexivity. Qed.

Lemma zip_swap (l k : list CTxIn) a b : (a, b) ∈ zip l k -> (b, a) ∈ zip k l.
Proof.
  intros Hin. apply elem_of_lookup_zip_with in Hin.
  destruct Hin as (i & x & y & [= -> ->] & Hx & Hy).
  apply elem_of_lookup_zip_with. exists i, y, x. auto.
Qed.

Lemma newer_step_same ps : forall st,
  (forall a b, (a, b) ∈ ps -> a = b) -> fold_left newer_step ps st = st.
Proof.
  induction ps as [|[a b] ps IH]; intros [fN L] Hsame; [reflexivity|].
  cbn [fold_left newer_step].
  rewrite (Hsame a b ltac:(left)), Z.eqb_refl. cbn [negb].
  apply IH. intros x y Hin. apply Hsame. now right.
Qed.

Lemma zip_same (l : list CTxIn) a b : (a, b) ∈ zip l l -> a = b.
Proof.
  intros Hin. apply elem_of_lookup_zip_with in Hin.
  destruct Hin as (i & x & y & [= -> ->] & Hx & Hy). congruence.
Qed.

(** X5.  No transaction is newer than itself, and for inputs whose
    sequence numbers are [unsigned int]s two transactions are never each
    newer than the other. *)
Theorem IsNewerThan_asymmetric (vin old_vin : list CTxIn) :
  IsNewerThan vin vin = false /\
  ((forall a, a ∈ vin -> nSequence a <= UINT_MAX) ->
   (forall b, b ∈ old_vin -> nSequence b <= UINT_MAX) ->
   IsNewerThan vin old_vin = true -> IsNewerThan old_vin vin = false).
Proof.
  split.
  - unfold IsNewerThan. rewrite Nat.eqb_refl. cbn [negb].
    rewrite prevouts_differ_spec, newer_scan_fold by lia. rewrite drop_0.
    rewrite newer_step_same by apply zip_same. cbn [fst].
    destruct (existsb _ (zip vin vin)); reflexivity.
  - intros Hv Ho Hnew.
    destruct (IsNewerThan old_vin vin) eqn:Hold; [exfalso|reflexivity].
    apply IsNewerThan_scan in Hnew. destruct Hnew as (_ & _ & Hnew).
    apply IsNewerThan_scan in Hold. destruct Hold as (_ & _ & Hold).
    apply newer_scan_verdict in Hnew;
      [|intros x y Hin; apply Hv; now apply (elem_of_zip_l x y vin old_vin)].
    apply newer_scan_verdict in Hold;
      [|intros x y Hin; apply Ho; now apply (elem_of_zip_l x y old_vin vin)].
    destruct Hnew as (a & b & [Hin Hne] & Hall).
    destruct Hold as (b2 & a2 & [Hin2 Hne2] & Hall2).
    assert (H1 : nSequence a2 < nSequence b).
    { apply (Hall2 b a). split; [now apply zip_swap|congruence]. }
    assert (H2 : nSequence b < nSequence a2).
    { apply (Hall a2 b2). split; [now apply zip_swap|congruence]. }
    lia.
Qed.

Lemma IsNewerThan_asymmetric_witness :
  ((forall a, a ∈ demo_vin_new -> nSequence a <= UINT_MAX) /\
   (forall b, b ∈ demo_vin_old -> nSequence b <= UINT_MAX) /\
   IsNewerThan demo_vin_new demo_vin_old = true) /\
  IsNewerThan demo_vin_old demo_vin_new = false.
Proof.
  assert (Hn : forall a, a ∈ demo_vin_new -> nSequence a <= UINT_MAX).
  { intros a Hin. unfold demo_vin_new in Hin.
    apply elem_of_cons in Hin. destruct Hin as [->|Hin]; [vm_compute; discriminate|].
    apply list_elem_of_singleton in Hin. subst a. vm_compute. discriminate. }
  assert (Ho : forall a, a ∈ demo_vin_old -> nSequence a <= UINT_MAX).
  { intros a Hin. unfold demo_vin_old in Hin.
    apply elem_of_cons in Hin. destruct Hin as [->|Hin]; [vm_compute; discriminate|].
    apply list_elem_of_singleton in Hin. subst a. vm_compute. discriminate. }
  split; [split; [exact Hn|split; [exact Ho|reflexivity]]|].
  exact (proj2 (IsNewerThan_asymmetric demo_vin_new demo_vin_old)
           Hn Ho eq_refl).
Defined.

(* --------------------------------------------------------------------- *)
(** ** Coin entry model: spending                                         *)
(* --------------------------------------------------------------------- *)

Section SpendFacts.

Context (IsNull : CTxOut -> bool) (SetNull : CTxOut -> CTxOut).

Implicit Types (c : CCoins) (out : COutPoint) (undo : CTxInUndo).
Implicit Types (vout : list CTxOut) (o : CTxOut).

Lemma trim_nulls_prefix vout :
  exists nulls,
    vout = trim_nulls IsNull vout ++ nulls /\ forallb IsNull nulls = true.
Proof.
  destruct (trim_nulls_spec IsNull vout) as (nulls & Heq & Hnull & _). eauto.
Qed.

(** A successful [Spend]: the output that was live, and the entry left. *)
Lemma Spend_true_inv c out undo :
  fst (fst (Spend IsNull SetNull c out undo)) = true ->
  exists o,
    CCoins.vout c !! COutPoint.n out = Some o /\ IsNull o = false /\
    snd (fst (Spend IsNull SetNull c out undo))
    = CCoins.set_vout c
        (trim_nulls IsNull (<[COutPoint.n out := SetNull o]> (CCoins.vout c))).
Proof.
  unfold Spend.
  destruct (Nat.leb_spec (length (CCoins.vout c)) (COutPoint.n out));
    [discriminate|].
  destruct (CCoins.vout c !! COutPoint.n out) as [o|]; [|discriminate].
  destruct (IsNull o) eqn:Hnull; [discriminate|].
  intros _. exists o. split; [reflexivity|]. split; [exact Hnull|reflexivity].
Qed.

(** X6.  When null outputs are recognised as null, an outpoint cannot be
    spent twice: after a successful [Spend], a second [Spend] of the same
    outpoint fails and changes neither the entry nor the undo record. *)
Theorem Spend_twice_fails c out undo undo2 :
  (forall o, IsNull (SetNull o) = true) ->
  fst (fst (Spend IsNull SetNull c out undo)) = true ->
  Spend IsNull SetNull (snd (fst (Spend IsNull SetNull c out undo))) out undo2
  = (false, snd (fst (Spend IsNull SetNull c out undo)), undo2).
Proof.
  intros Hnull Hok.
  destruct (Spend_true_inv c out undo Hok) as (o & Hlook & Hlive & ->).
  set (n := COutPoint.n out) in *.
  set (L := <[n := SetNull o]> (CCoins.vout c)).
  destruct (trim_nulls_prefix L) as (nulls & HL & _).
  unfold Spend. cbn [CCoins.vout CCoins.set_vout]. fold n. fold L.
  destruct (Nat.leb_spec (length (trim_nulls IsNull L)) n) as [Hge|Hlt];
    [reflexivity|].
  assert (Hn : trim_nulls IsNull L !! n = Some (SetNull o)).
  { rewrite <- (lookup_app_l _ nulls) by exact Hlt. rewrite <- HL.
    apply list_lookup_insert_eq. eapply lookup_lt_Some; eauto. }
  rewrite Hn, Hnull. reflexivity.
Qed.

(** X7.  A successful [Spend] touches no other output: the outputs that
    remain are the old ones at the same positions, every other live
    output remains, the vector does not grow, and it does not end in a
    null output. *)
Theorem Spend_keeps_others c out undo :
  fst (fst (Spend IsNull SetNull c out undo)) = true ->
  let vout' := CCoins.vout (snd (fst (Spend IsNull SetNull c out undo))) in
  (length vout' <= length (CCoins.vout c))%nat /\
  (forall m o, m <> COutPoint.n out ->
     vout' !! m = Some o -> CCoins.vout c !! m = Some o) /\
  (forall m o, m <> COutPoint.n out ->
     CCoins.vout c !! m = Some o -> IsNull o = false ->
     vout' !! m = Some o) /\
  match last vout' with
  | Some o => IsNull o = false
  | None => True
  end.
Proof.
  intros Hok vout'. subst vout'.
  destruct (Spend_true_inv c out undo Hok) as (o0 & Hlook & Hlive & ->).
  set (n := COutPoint.n out) in *.
  set (L := <[n := SetNull o0]> (CCoins.vout c)).
  cbn [CCoins.vout CCoins.set_vout].
  destruct (trim_nulls_spec IsNull L) as (nulls & HL & Hnull & Hlast).
  assert (HlenL : length L = length (CCoins.vout c)) by apply length_insert.
  split; [|split; [|split]].
  - pose proof (f_equal length HL) as Hsum.
    rewrite List.length_app in Hsum. lia.
  - intros m o Hm Hin.
    rewrite <- (list_lookup_insert_ne (CCoins.vout c) n m (SetNull o0))
      by congruence.
    fold L. rewrite HL. now apply lookup_app_l_Some.
  - intros m o Hm Hin Hlv.
    assert (HLm : L !! m = Some o).
    { unfold L. rewrite list_lookup_insert_ne by congruence. exact Hin. }
    rewrite HL in HLm.
    destruct (Nat.lt_ge_cases m (length (trim_nulls IsNull L))) as [Hlt|Hge].
    + now rewrite lookup_app_l in HLm.
    + rewrite lookup_app_r in HLm by exact Hge.
      apply list_elem_of_lookup_2, list_elem_of_In in HLm.
      rewrite List.forallb_forall in Hnull. rewrite (Hnull o HLm) in Hlv.
      discriminate.
  - exact Hlast.
Qed.

End SpendFacts.

Lemma Spend_twice_fails_witness :
  ((forall o, demo_IsNull (demo_SetNull o) = true) /\
   fst (fst (Spend demo_IsNull demo_SetNull demo_coins_two
               (COutPoint.mk 0 0) blank_undo)) = true) /\
  Spend demo_IsNull demo_SetNull
    (snd (fst (Spend demo_IsNull demo_SetNull demo_coins_two
                 (COutPoint.mk 0 0) blank_undo)))
    (COutPoint.mk 0 0) blank_undo
  = (false,
     snd (fst (Spend demo_IsNull demo_SetNull demo_coins_two
                 (COutPoint.mk 0 0) blank_undo)),
     blank_undo).
Proof.
  split; [split; [intros o; reflexivity|reflexivity]|].
  apply Spend_twice_fails; [intros o; reflexivity|reflexivity].
Defined.

Lemma Spend_keeps_others_witness :
  fst (fst (Spend demo_IsNull demo_SetNull demo_coins_two
              (COutPoint.mk 0 2) blank_undo)) = true /\
  (length (CCoins.vout (snd (fst (Spend demo_IsNull demo_SetNull
                                    demo_coins_two (COutPoint.mk 0 2)
                                    blank_undo))))
   <= length (CCoins.vout demo_coins_two))%nat /\
  CCoins.vout (snd (fst (Spend demo_IsNull demo_SetNull demo_coins_two
                           (COutPoint.mk 0 2) blank_undo))) !! 0%nat
  = Some (live_out 10).
Proof.
  split; [reflexivity|].
  pose proof (Spend_keeps_others demo_IsNull demo_SetNull demo_coins_two
                (COutPoint.mk 0 2) blank_undo eq_refl) as H.
  cbv zeta in H. destruct H as (Hlen & _ & Hkeep & _).
  split; [exact Hlen|].
  apply (Hkeep 0%nat (live_out 10)); [discriminate|reflexivity|reflexivity].
Defined.

Section CoinEntryFurther.

Context (IsNull : CTxOut -> bool) (SetNull : CTxOut -> CTxOut).

Implicit Types (c : CCoins) (vout : list CTxOut).

(** X8.  [Spend(int nPos)] with a negative position fails and leaves the
    entry as it was (for an entry of at most [2^31] outputs, the position
    wraps to an index beyond them); with a position from 0 to [INT_MAX]
    it is the spend of the output at that position. *)
Theorem Spend_at_position c nPos undo :
  - 2 ^ 31 <= nPos <= INT_MAX ->
  Z.of_nat (length (CCoins.vout c)) <= 2 ^ 31 ->
  (nPos < 0 -> Spend_at IsNull SetNull c nPos undo = (false, c)) /\
  (0 <= nPos ->
   Spend_at IsNull SetNull c nPos undo
   = fst (Spend IsNull SetNull c (COutPoint.mk 0 (Z.to_nat nPos)) undo)).
Proof.
  intros Hpos Hlen. unfold INT_MAX in Hpos. unfold Spend_at. split.
  - intros Hneg. unfold Spend. cbn [COutPoint.n].
    assert (Hw : wrap32 nPos = nPos + 2 ^ 32).
    { unfold wrap32. symmetry. apply (Z.mod_unique _ _ (-1)); lia. }
    rewrite Hw.
    destruct (Nat.leb_spec (length (CCoins.vout c)) (Z.to_nat (nPos + 2 ^ 32)));
      [reflexivity|lia].
  - intros Hnn. now rewrite wrap32_small by lia.
Qed.

(** The two counts of [CalcMaskSize] started from zero. *)
Lemma CalcMaskSize_zero c :
  Z.of_nat (length (CCoins.vout c)) + 8 <= 2 ^ 32 ->
  CalcMaskSize IsNull c 0 0
  = (Z.of_nat (byteCount IsNull (CCoins.vout c)),
     Z.of_nat (nonZeroByteCount IsNull (CCoins.vout c))).
Proof.
  intros Hlen. unfold CalcMaskSize.
  pose proof (mask_bytes_spec IsNull (CCoins.vout c) Hlen
                (length (CCoins.vout c)) 0%nat 0 0 ltac:(lia) ltac:(lia)) as H.
  change (Z.of_nat 0) with 0 in H. rewrite H.
  pose proof (byteCount_bound IsNull (CCoins.vout c)).
  pose proof (nonZeroByteCount_bound IsNull (CCoins.vout c)).
  unfold byteCount, nonZeroByteCount, used_bytes in *.
  destruct (last (List.filter (byte_used IsNull (CCoins.vout c))
                    (seq 0 (length (CCoins.vout c))))).
  - cbn [Z.add]. now rewrite !wrap32_small by lia.
  - cbn [Z.add]. now rewrite !wrap32_small by lia.
Qed.

(** A filtered stretch of consecutive numbers is no longer than its last
    element allows. *)
Lemma filter_seq_last (f : nat -> bool) a : forall k,
  match last (List.filter f (seq a k)) with
  | Some b => (length (List.filter f (seq a k)) + a <= S b)%nat
              /\ f b = true
  | None => List.filter f (seq a k) = []
  end.
Proof.
  induction k as [|k IH]; [reflexivity|].
  rewrite List.seq_S, List.filter_app. cbn [List.filter].
  destruct (f (a + k)%nat) eqn:Hf.
  - rewrite last_snoc, List.length_app. cbn [length].
    pose proof (List.filter_length_le f (seq a k)) as Hle.
    rewrite List.length_seq in Hle. split; [lia|exact Hf].
  - rewrite List.app_nil_r. exact IH.
Qed.

(** X9.  Started from zero, [CalcMaskSize] never counts more used bytes
    than bitmask bytes, and never more bitmask bytes than the outputs
    from position 2 on can fill: [8 * nBytes <= vout.size() + 5]. *)
Theorem CalcMaskSize_bounds c :
  Z.of_nat (length (CCoins.vout c)) + 8 <= 2 ^ 32 ->
  0 <= snd (CalcMaskSize IsNull c 0 0) <= fst (CalcMaskSize IsNull c 0 0) /\
  8 * fst (CalcMaskSize IsNull c 0 0) <= Z.of_nat (length (CCoins.vout c)) + 5.
Proof.
  intros Hlen. rewrite CalcMaskSize_zero by exact Hlen. cbn [fst snd].
  unfold byteCount, nonZeroByteCount, used_bytes.
  pose proof (filter_seq_last (byte_used IsNull (CCoins.vout c)) 0
                (length (CCoins.vout c))) as H.
  destruct (last (List.filter (byte_used IsNull (CCoins.vout c))
                    (seq 0 (length (CCoins.vout c))))) as [b|].
  - destruct H as [Hcount Hused].
    destruct (Nat.le_gt_cases (length (CCoins.vout c)) (2 + 8 * b)) as [Hout|Hin].
    + rewrite (byte_unused_beyond IsNull _ _ Hout) in Hused. discriminate.
    + lia.
  - rewrite H. cbn [length]. lia.
Qed.




End CoinEntryFurther.

Lemma Spend_at_position_witness :
  (- 2 ^ 31 <= -1 <= INT_MAX /\
   Z.of_nat (length (CCoins.vout demo_coins_two)) <= 2 ^ 31) /\
  Spend_at demo_IsNull demo_SetNull demo_coins_two (-1) blank_undo
  = (false, demo_coins_two) /\
  Spend_at demo_IsNull demo_SetNull demo_coins_two 2 blank_undo
  = fst (Spend demo_IsNull demo_SetNull demo_coins_two
           (COutPoint.mk 0 2) blank_undo).
Proof.
  split; [vm_compute; intuition discriminate|].
  destruct (Spend_at_position demo_IsNull demo_SetNull demo_coins_two (-1)
              blank_undo) as [Hneg _];
    [vm_compute; intuition discriminate | vm_compute; discriminate |].
  destruct (Spend_at_position demo_IsNull demo_SetNull demo_coins_two 2
              blank_undo) as [_ Hpos];
    [vm_compute; intuition discriminate | vm_compute; discriminate |].
  split; [apply Hneg; lia | apply Hpos; lia].
Defined.

Lemma CalcMaskSize_bounds_witness :
  Z.of_nat (length (CCoins.vout demo_mask_coins)) + 8 <= 2 ^ 32 /\
  0 <= snd (CalcMaskSize demo_IsNull demo_mask_coins 0 0)
    <= fst (CalcMaskSize demo_IsNull demo_mask_coins 0 0) /\
  8 * fst (CalcMaskSize demo_IsNull demo_mask_coins 0 0)
  <= Z.of_nat (length (CCoins.vout demo_mask_coins)) + 5.
Proof.
  split; [vm_compute; discriminate|].
  apply CalcMaskSize_bounds. vm_compute. discriminate.
Defined.


(* --------------------------------------------------------------------- *)
(** ** Merkle engine: shape of the tree                                   *)
(* --------------------------------------------------------------------- *)

Section MerkleShape.

Context {CTransaction CAuxPow : Type}.
Context (TxGetHash : CTransaction -> uint256).
Context (Hash : uint256 -> uint256 -> uint256).

Implicit Types (b : CBlock CTransaction CAuxPow) (level : list uint256).

Lemma pair_up_app_even (p q : list uint256) :
  Nat.even (length p) = true ->
  pair_up Hash (p ++ q) = pair_up Hash p ++ pair_up Hash q.
Proof.
  induction p as [| a | a c l IH] using list_pair_ind; intros Heven.
  - reflexivity.
  - discriminate.
  - cbn [app pair_up]. f_equal. apply IH. exact Heven.
Qed.

Lemma root_of_fuel fuel : forall k level,
  (length level <= fuel)%nat ->
  root_of Hash (fuel + k) level = root_of Hash fuel level.
Proof.
  induction fuel as [|fuel IH]; intros k level Hfuel.
  - destruct level; [|simpl in Hfuel; lia]. now destruct k.
  - cbn [Nat.add root_of].
    destruct (Z.ltb_spec 1 (Z.of_nat (length level))) as [Hlt|Hge];
      [|reflexivity].
    pose proof (pair_up_shrinks Hash level ltac:(lia)).
    rewrite IH by lia. reflexivity.
Qed.

Lemma root_of_S fuel level :
  root_of Hash (S fuel) level
  = if 1 <? Z.of_nat (length level)
    then root_of Hash fuel (pair_up Hash level)
    else hd 0 level.
Proof. reflexivity. Qed.

(** X11.  The root does not tell a list of odd length (three or more)
    from the list with its last transaction repeated: both blocks get the
    same Merkle root. *)
Theorem merkle_root_repeated_last b1 b2 (txs : list CTransaction) tx :
  vtx b1 = txs ++ [tx] -> vtx b2 = txs ++ [tx; tx] ->
  Nat.even (length txs) = true -> txs <> [] ->
  fst (BuildMerkleTree TxGetHash Hash b2)
  = fst (BuildMerkleTree TxGetHash Hash b1).
Proof.
  intros H1 H2 Heven Hne.
  rewrite !(BuildMerkleTree_eq TxGetHash Hash). cbn [fst].
  rewrite H1, H2, !List.map_app. cbn [map].
  set (p := map TxGetHash txs). set (x := TxGetHash tx).
  assert (Hp : length p = length txs) by apply List.length_map.
  assert (Hlen : (2 <= length p)%nat).
  { rewrite Hp. destruct txs as [|t1 [|t2 l]]; [congruence|discriminate|].
    cbn [length]. lia. }
  destruct (p ++ [x; x]) eqn:E2; [destruct p; discriminate|]. rewrite <- E2.
  destruct (p ++ [x]) eqn:E1; [destruct p; discriminate|]. rewrite <- E1.
  rewrite !List.length_app. cbn [length].
  replace (length p + 2)%nat with (S (length p + 1)) by lia.
  replace (length p + 1)%nat with (S (length p)) at 2 by lia.
  rewrite (root_of_S (length p + 1)), (root_of_S (length p)).
  rewrite !List.length_app. cbn [length].
  destruct (Z.ltb_spec 1 (Z.of_nat (length p + 2))); [|lia].
  destruct (Z.ltb_spec 1 (Z.of_nat (length p + 1))); [|lia].
  rewrite !pair_up_app_even by (rewrite Hp; exact Heven).
  cbn [pair_up].
  pose proof (pair_up_shrinks Hash p ltac:(lia)) as Hsh.
  apply root_of_fuel. rewrite List.length_app. cbn [length]. lia.
Qed.

(** X12.  [BuildMerkleTree] caches the hash of transaction [i] in entry
    [i] of [vMerkleTree]. *)
Theorem BuildMerkleTree_caches_hashes b (i : nat) tx :
  vtx b !! i = Some tx ->
  vec_at (vMerkleTree (snd (BuildMerkleTree TxGetHash Hash b))) (Z.of_nat i)
  = TxGetHash tx.
Proof.
  intros Htx. rewrite (BuildMerkleTree_eq TxGetHash Hash).
  cbn [snd vMerkleTree set_vMerkleTree].
  destruct (tree_of_prefix Hash (length (map TxGetHash (vtx b)))
              (map TxGetHash (vtx b))) as [rest ->].
  rewrite vec_at_of_nat.
  rewrite List.app_nth1
    by (rewrite List.length_map; eapply lookup_lt_Some; eauto).
  apply nth_lookup_Some.
  change (map TxGetHash (vtx b)) with (TxGetHash <$> vtx b).
  now rewrite list_lookup_fmap, Htx.
Qed.




End MerkleShape.

Lemma merkle_root_repeated_last_witness :
  (vtx odd_block = [tx_A; tx_B] ++ [tx_C] /\
   vtx dup_block = [tx_A; tx_B] ++ [tx_C; tx_C] /\
   Nat.even (length [tx_A; tx_B]) = true /\ [tx_A; tx_B] <> []) /\
  fst (BuildMerkleTree demo_tx_hash demo_hash dup_block)
  = fst (BuildMerkleTree demo_tx_hash demo_hash odd_block).
Proof.
  split; [repeat split; discriminate|].
  apply (merkle_root_repeated_last demo_tx_hash demo_hash odd_block dup_block
           [tx_A; tx_B] tx_C); try reflexivity. discriminate.
Defined.

Lemma BuildMerkleTree_caches_hashes_witness :
  vtx dup_block !! 1%nat = Some tx_B /\
  vec_at (vMerkleTree (snd (BuildMerkleTree demo_tx_hash demo_hash dup_block)))
    (Z.of_nat 1)
  = demo_tx_hash tx_B.
Proof.
  split; [reflexivity|].
  apply (BuildMerkleTree_caches_hashes demo_tx_hash demo_hash dup_block 1 tx_B).
  reflexivity.
Defined.

(* --------------------------------------------------------------------- *)
(** ** Proof-of-work verifier: verdicts and logs                          *)
(* --------------------------------------------------------------------- *)

Section ProofOfWorkFurther.

Context {CAuxPow : Type}.
Context (TestNet : bool) (SetCompact : Z -> Z) (ProofOfWorkLimit : Z).
Context (getuint256 : Z -> uint256).
Context (HashSkein : Z -> uint256 -> uint256 -> Z -> Z -> Z -> uint256).
Context (ChainIDOfVersion : Z -> Z) (GetOurChainID : Z).
Context (AuxPowCheck : CAuxPow -> uint256 -> Z -> bool).
Context (GetParentBlockHash : CAuxPow -> uint256).

Local Abbreviation base_check :=
  (CheckProofOfWork SetCompact ProofOfWorkLimit getuint256).
Local Abbreviation header_check :=
  (CBlockHeader_CheckProofOfWork CAuxPow TestNet SetCompact ProofOfWorkLimit
     getuint256 HashSkein ChainIDOfVersion GetOurChainID AuxPowCheck
     GetParentBlockHash).
Local Abbreviation header_hash := (GetHash CAuxPow HashSkein).

Implicit Types (h : CBlockHeader CAuxPow) (nHeight : Z).

(** X14.  A compact target that decodes to a value that is not positive
    or lies above the limit fails every hash with the range message; and
    a target that some hash meets is met by every smaller hash. *)
Theorem CheckProofOfWork_target nBits :
  (SetCompact nBits <= 0 \/ ProofOfWorkLimit < SetCompact nBits ->
   forall hash,
     base_check hash nBits
     = error "CheckProofOfWork() : nBits below minimum work") /\
  (forall hash hash',
     hash' <= hash -> fst (base_check hash nBits) = true ->
     base_check hash' nBits = (true, [])).
Proof.
  unfold CheckProofOfWork. split.
  - intros Hrange hash.
    destruct (Z.leb_spec (SetCompact nBits) 0);
      destruct (Z.ltb_spec ProofOfWorkLimit (SetCompact nBits));
      cbn [orb]; try reflexivity; lia.
  - intros hash hash' Hle.
    destruct (_ || _); [discriminate|].
    destruct (Z.ltb_spec (getuint256 (SetCompact nBits)) hash);
      [discriminate|].
    intros _.
    destruct (Z.ltb_spec (getuint256 (SetCompact nBits)) hash');
      [lia|reflexivity].
Qed.

Lemma base_check_log hash nBits :
  fst (base_check hash nBits) = true <-> snd (base_check hash nBits) = [].
Proof.
  unfold CheckProofOfWork.
  destruct (_ || _); [split; discriminate|].
  destruct (_ <? _); split; (discriminate || reflexivity).
Qed.

(** X15.  [CBlockHeader::CheckProofOfWork] never fails silently and never
    logs on success: its verdict is [true] exactly when nothing was
    passed to [error]. *)
Theorem header_check_logs_failures h nHeight :
  fst (CBlockHeader_CheckProofOfWork CAuxPow TestNet SetCompact
         ProofOfWorkLimit getuint256 HashSkein ChainIDOfVersion GetOurChainID
         AuxPowCheck GetParentBlockHash h nHeight) = true
  <-> snd (CBlockHeader_CheckProofOfWork CAuxPow TestNet SetCompact
             ProofOfWorkLimit getuint256 HashSkein ChainIDOfVersion
             GetOurChainID AuxPowCheck GetParentBlockHash h nHeight) = [].
Proof.
  assert (Htail : forall r : Logged bool,
            (fst r = true <-> snd r = []) ->
            forall msg,
              fst (if negb (fst r) then error_after r msg else (true, snd r))
              = true
              <-> snd (if negb (fst r) then error_after r msg
                       else (true, snd r)) = []).
  { intros [ok log] Hr msg. cbn [fst snd] in *. destruct ok; cbn [negb].
    - cbn [fst snd]. split; [intros _; now apply Hr|reflexivity].
    - unfold error_after. cbn [fst snd]. split; [discriminate|].
      intros E. now destruct log. }
  unfold CBlockHeader_CheckProofOfWork.
  destruct (_ <=? _).
  - destruct (_ && _); [split; discriminate|].
    destruct (auxpow h) as [pow|].
    + destruct (negb _); [split; discriminate|].
      apply Htail, base_check_log.
    + apply Htail, base_check_log.
  - destruct (auxpow h); [split; discriminate|].
    apply Htail, base_check_log.
Qed.

(** X16.  Every header that [CBlockHeader::CheckProofOfWork] accepts has
    passed the base check under its own [nBits]: on its own hash when it
    carries no auxiliary record, and otherwise on the hash of the
    parent-chain block, which is possible at or above the activation
    height only. *)
Theorem header_check_sound h nHeight :
  fst (header_check h nHeight) = true ->
  match auxpow h with
  | None => fst (base_check (header_hash h) (nBits h)) = true
  | Some pow =>
      GetAuxPowStartBlock TestNet <= nHeight /\
      fst (base_check (GetParentBlockHash pow) (nBits h)) = true
  end.
Proof.
  unfold CBlockHeader_CheckProofOfWork.
  destruct (Z.leb_spec (GetAuxPowStartBlock TestNet) nHeight) as [Hact|Hlow].
  - destruct (_ && _); [discriminate|].
    destruct (auxpow h) as [pow|].
    + destruct (negb (AuxPowCheck _ _ _)); [discriminate|].
      destruct (fst (base_check _ _)); [auto|discriminate].
    + destruct (fst (base_check _ _)); [auto|discriminate].
  - destruct (auxpow h); [discriminate|].
    destruct (fst (base_check _ _)); [auto|discriminate].
Qed.

End ProofOfWorkFurther.

Lemma CheckProofOfWork_target_witness :
  (demo_SetCompact 0 <= 0 /\ 3 <= 5 /\
   fst (CheckProofOfWork demo_SetCompact demo_limit demo_getuint256 5 1000)
   = true) /\
  CheckProofOfWork demo_SetCompact demo_limit demo_getuint256 5 0
  = error "CheckProofOfWork() : nBits below minimum work" /\
  CheckProofOfWork demo_SetCompact demo_limit demo_getuint256 3 1000
  = (true, []).
Proof.
  split; [repeat split; vm_compute; discriminate|]. split.
  - apply (proj1 (CheckProofOfWork_target demo_SetCompact demo_limit
                    demo_getuint256 0)).
    left. vm_compute. discriminate.
  - apply (proj2 (CheckProofOfWork_target demo_SetCompact demo_limit
                    demo_getuint256 1000) 5 3); [lia|reflexivity].
Defined.

Lemma header_check_sound_witness :
  fst (demo_header_check false own_aux_header 1000000) = true /\
  GetAuxPowStartBlock false <= 1000000 /\
  fst (CheckProofOfWork demo_SetCompact demo_limit demo_getuint256
         (demo_parent_hash (1, 7)) (nBits own_aux_header)) = true.
Proof.
  split; [reflexivity|].
  exact (header_check_sound false demo_SetCompact demo_limit demo_getuint256
           demo_HashSkein demo_chain_id demo_our_chain demo_aux_check
           demo_parent_hash own_aux_header 1000000 eq_refl).
Defined.

(* --------------------------------------------------------------------- *)
(** ** [CBlockHeader::SetAuxPow]                                          *)
(* --------------------------------------------------------------------- *)

Section SetAuxPowFacts.

Context {CAuxPow : Type} (BLOCK_VERSION_AUXPOW : Z).

Implicit Types (h : CBlockHeader CAuxPow) (pow : option CAuxPow).

Lemma lor_land_flag v F : Z.land (Z.lor v F) F = F.
Proof.
  apply Z.bits_inj'. intros i Hi. rewrite Z.land_spec, Z.lor_spec.
  destruct (Z.testbit v i), (Z.testbit F i); reflexivity.
Qed.

Lemma land_lnot_flag v F : Z.land (Z.land v (Z.lnot F)) F = 0.
Proof.
  apply Z.bits_inj'. intros i Hi.
  rewrite !Z.land_spec, Z.lnot_spec, Z.bits_0 by exact Hi.
  destruct (Z.testbit v i), (Z.testbit F i); reflexivity.
Qed.

Lemma lor_then_clear v F :
  Z.land (Z.lor v F) (Z.lnot F) = Z.land v (Z.lnot F).
Proof.
  apply Z.bits_inj'. intros i Hi.
  rewrite !Z.land_spec, Z.lor_spec, Z.lnot_spec by exact Hi.
  destruct (Z.testbit v i), (Z.testbit F i); reflexivity.
Qed.

Lemma clear_then_lor v F : Z.lor (Z.land v (Z.lnot F)) F = Z.lor v F.
Proof.
  apply Z.bits_inj'. intros i Hi.
  rewrite !Z.lor_spec, Z.land_spec, Z.lnot_spec by exact Hi.
  destruct (Z.testbit v i), (Z.testbit F i); reflexivity.
Qed.

(** X17.  [SetAuxPow] keeps the version flag and the record in step: the
    record becomes the argument, the flag bits of the version are all set
    when a record is attached and all clear when it is detached, no other
    bit of the version changes, and of two calls in a row only the last
    one counts. *)
Theorem SetAuxPow_flag h pow :
  auxpow (SetAuxPow BLOCK_VERSION_AUXPOW h pow) = pow /\
  Z.land (nVersion (SetAuxPow BLOCK_VERSION_AUXPOW h pow)) BLOCK_VERSION_AUXPOW
  = match pow with Some _ => BLOCK_VERSION_AUXPOW | None => 0 end /\
  (forall i, 0 <= i -> Z.testbit BLOCK_VERSION_AUXPOW i = false ->
     Z.testbit (nVersion (SetAuxPow BLOCK_VERSION_AUXPOW h pow)) i
     = Z.testbit (nVersion h) i) /\
  (forall pow',
     SetAuxPow BLOCK_VERSION_AUXPOW
       (SetAuxPow BLOCK_VERSION_AUXPOW h pow) pow'
     = SetAuxPow BLOCK_VERSION_AUXPOW h pow').
Proof.
  unfold SetAuxPow.
  cbn [auxpow nVersion hashPrevBlock hashMerkleRoot nTime nBits nNonce].
  split; [reflexivity|]. split; [|split].
  - destruct pow; [apply lor_land_flag|apply land_lnot_flag].
  - intros i Hi Hbit. destruct pow.
    + rewrite Z.lor_spec, Hbit. apply orb_false_r.
    + rewrite Z.land_spec, Z.lnot_spec, Hbit by exact Hi. apply andb_true_r.
  - intros pow'. f_equal. destruct pow, pow'.
    + rewrite <- Z.lor_assoc. now rewrite Z.lor_diag.
    + apply lor_then_clear.
    + apply clear_then_lor.
    + rewrite <- Z.land_assoc. now rewrite Z.land_diag.
Qed.

End SetAuxPowFacts.

Lemma SetAuxPow_flag_witness :
  Z.testbit 256 3 = false /\
  Z.testbit (nVersion (SetAuxPow 256 foreign_header (Some (5, 7)))) 3
  = Z.testbit (nVersion foreign_header) 3.
Proof.
  split; [reflexivity|].
  destruct (SetAuxPow_flag 256 foreign_header (Some (5, 7)))
    as (_ & _ & Hbits & _).
  apply Hbits; [lia|reflexivity].
Defined.

(* --------------------------------------------------------------------- *)
(** ** Block structural validator: what acceptance means                  *)
(* --------------------------------------------------------------------- *)

Section CheckBlockFurther.

Context {CTransaction CAuxPow CValidationState : Type}.
Context (TxGetHash : CTransaction -> uint256).
Context (Hash : uint256 -> uint256 -> uint256).
Context (SetCompact : Z -> Z) (ProofOfWorkLimit : Z).
Context (getuint256 : Z -> uint256).
Context (HashSkein : Z -> uint256 -> uint256 -> Z -> Z -> Z -> uint256).
Context (DoS : Z -> CValidationState -> CValidationState).
Context (MAX_BLOCK_SIZE MAX_BLOCK_SIGOPS : Z).
Context (GetSerializeSize : CBlock CTransaction CAuxPow -> Z).
Context (GetAdjustedTime : Z).
Context (IsCoinBase : CTransaction -> bool).
Context (CheckTransaction :
           CTransaction -> CValidationState -> bool * CValidationState).
Context (GetLegacySigOpCount : CTransaction -> Z).

Local Abbreviation base_check :=
  (CheckProofOfWork SetCompact ProofOfWorkLimit getuint256).
Local Abbreviation check_block :=
  (CheckBlock TxGetHash Hash SetCompact ProofOfWorkLimit getuint256 HashSkein
     DoS MAX_BLOCK_SIZE MAX_BLOCK_SIGOPS GetSerializeSize GetAdjustedTime
     IsCoinBase CheckTransaction GetLegacySigOpCount).
Local Abbreviation build := (BuildMerkleTree TxGetHash Hash).

Implicit Types (b : CBlock CTransaction CAuxPow) (state : CValidationState).

(** The duplicate check passes exactly for distinct hashes. *)
Lemma uniqueTx_size_NoDup b :
  (Z.of_nat (size (uniqueTx (snd (build b))))
   =? Z.of_nat (length (vtx (snd (build b))))) = true
  <-> NoDup (map TxGetHash (vtx b)).
Proof.
  rewrite (uniqueTx_built TxGetHash Hash SetCompact getuint256 HashSkein DoS
             GetSerializeSize IsCoinBase CheckTransaction GetLegacySigOpCount).
  assert (Hvtx : vtx (snd (build b)) = vtx b) by reflexivity.
  rewrite Hvtx, Z.eqb_eq, Nat2Z.inj_iff.
  rewrite <- (List.length_map TxGetHash).
  split; [apply size_list_to_set_NoDup|apply size_list_to_set].
Qed.

Lemma log_error_nonempty log msg : log_error log msg <> [].
Proof. unfold log_error. now destruct log. Qed.

(** An accepted block has passed every check. *)
Lemma CheckBlock_accept_inv b nHeight state :
  accepted (check_block b nHeight state) = true ->
  vtx b <> [] /\
  Z.of_nat (length (vtx b)) <= MAX_BLOCK_SIZE /\
  GetSerializeSize b <= MAX_BLOCK_SIZE /\
  fst (base_check (GetHash CAuxPow HashSkein (header b)) (nBits (header b)))
  = true /\
  nTime (header b) <= GetAdjustedTime + 2 * 60 * 60 /\
  IsCoinBase <$> head (vtx b) = Some true /\
  existsb IsCoinBase (drop 1 (vtx b)) = false /\
  fst (CheckTransactions CheckTransaction (vtx b) state) = true /\
  NoDup (map TxGetHash (vtx b)) /\
  count_sigops GetLegacySigOpCount (vtx b) <= MAX_BLOCK_SIGOPS /\
  hashMerkleRoot (header b) = fst (build b).
Proof.
  unfold CheckBlock.
  destruct (Z.eqb_spec (Z.of_nat (length (vtx b))) 0) as [|Hn0];
    [discriminate|].
  destruct (Z.ltb_spec MAX_BLOCK_SIZE (Z.of_nat (length (vtx b))));
    [discriminate|].
  destruct (Z.ltb_spec MAX_BLOCK_SIZE (GetSerializeSize b)); [discriminate|].
  cbn [orb].
  destruct (fst (base_check _ _)) eqn:Hpow; [|discriminate]. cbn [negb].
  destruct (Z.ltb_spec (GetAdjustedTime + 2 * 60 * 60) (nTime (header b)));
    [discriminate|].
  destruct (vtx b) as [|tx0 rest] eqn:Evtx; [discriminate|].
  destruct (IsCoinBase tx0) eqn:Hcb; [|discriminate]. cbn [negb].
  destruct (existsb IsCoinBase (drop 1 (tx0 :: rest))) eqn:Hone;
    [discriminate|].
  rewrite <- Evtx in *.
  destruct (CheckTransactions CheckTransaction (vtx b) state) as [ok st] eqn:Htx.
  destruct ok; [|discriminate]. cbn [negb].
  destruct (Z.of_nat (size (uniqueTx (snd (build b))))
            =? Z.of_nat (length (vtx (snd (build b))))) eqn:Hdup;
    [|discriminate]. cbn [negb].
  assert (Hvtx : vtx (snd (build b)) = vtx b) by reflexivity.
  rewrite Hvtx.
  destruct (Z.ltb_spec MAX_BLOCK_SIGOPS
              (count_sigops GetLegacySigOpCount (vtx b))); [discriminate|].
  destruct (build (snd (build b))) as [root b2] eqn:Hb2.
  assert (Hroot : root = fst (build b)).
  { change root with (fst (root, b2)). rewrite <- Hb2. reflexivity. }
  assert (Hhdr : header b2 = header b).
  { change b2 with (snd (root, b2)). rewrite <- Hb2. reflexivity. }
  rewrite Hhdr.
  destruct (Z.eqb_spec (hashMerkleRoot (header b)) root) as [Hr|];
    [|discriminate].
  intros _.
  assert (Hhead : IsCoinBase <$> head (vtx b) = Some true)
    by (rewrite Evtx; cbn; now rewrite Hcb).
  assert (Hne : vtx b <> []) by (rewrite Evtx; discriminate).
  apply uniqueTx_size_NoDup in Hdup.
  repeat split; try assumption; try lia; congruence.
Qed.

(** A block that passes every check is accepted, silently and with the
    state that the transaction checks left. *)
Lemma CheckBlock_accept_eq b nHeight state :
  vtx b <> [] /\
  Z.of_nat (length (vtx b)) <= MAX_BLOCK_SIZE /\
  GetSerializeSize b <= MAX_BLOCK_SIZE /\
  fst (base_check (GetHash CAuxPow HashSkein (header b)) (nBits (header b)))
  = true /\
  nTime (header b) <= GetAdjustedTime + 2 * 60 * 60 /\
  IsCoinBase <$> head (vtx b) = Some true /\
  existsb IsCoinBase (drop 1 (vtx b)) = false /\
  fst (CheckTransactions CheckTransaction (vtx b) state) = true /\
  NoDup (map TxGetHash (vtx b)) /\
  count_sigops GetLegacySigOpCount (vtx b) <= MAX_BLOCK_SIGOPS /\
  hashMerkleRoot (header b) = fst (build b) ->
  check_block b nHeight state
  = mkOutcome true (snd (CheckTransactions CheckTransaction (vtx b) state))
      [] (snd (build b)).
Proof.
  intros (Hne & Hn & Hsz & Hpow & Htime & Hcb & Hone & Htx & Hnd & Hsig & Hroot).
  unfold CheckBlock.
  destruct (Z.eqb_spec (Z.of_nat (length (vtx b))) 0) as [E|_].
  { destruct (vtx b); [congruence|discriminate]. }
  destruct (Z.ltb_spec MAX_BLOCK_SIZE (Z.of_nat (length (vtx b)))); [lia|].
  destruct (Z.ltb_spec MAX_BLOCK_SIZE (GetSerializeSize b)); [lia|].
  cbn [orb]. rewrite Hpow. cbn [negb].
  rewrite (proj1 (base_check_log SetCompact ProofOfWorkLimit getuint256 _ _)
             Hpow).
  destruct (Z.ltb_spec (GetAdjustedTime + 2 * 60 * 60) (nTime (header b)));
    [lia|].
  destruct (vtx b) as [|tx0 rest] eqn:Evtx; [congruence|].
  cbn [head fmap option_fmap option_map] in Hcb. injection Hcb as ->.
  cbn [negb]. rewrite Hone. rewrite <- Evtx in *.
  destruct (CheckTransactions CheckTransaction (vtx b) state) as [ok st].
  cbn [fst snd] in *. subst ok. cbn [negb].
  rewrite (proj2 (uniqueTx_size_NoDup b) Hnd). cbn [negb].
  assert (Hvtx : vtx (snd (build b)) = vtx b) by reflexivity.
  rewrite Hvtx.
  destruct (Z.ltb_spec MAX_BLOCK_SIGOPS
              (count_sigops GetLegacySigOpCount (vtx b))); [lia|].
  destruct (build (snd (build b))) as [root b2] eqn:Hb2.
  assert (Hr : root = fst (build b)).
  { change root with (fst (root, b2)). rewrite <- Hb2. reflexivity. }
  assert (Hb : b2 = snd (build b)).
  { change b2 with (snd (root, b2)). rewrite <- Hb2. reflexivity. }
  rewrite Hb at 1.
  assert (Hhdr : header (snd (build b)) = header b) by reflexivity.
  rewrite Hhdr, Hr, Hroot, Z.eqb_refl. cbn [negb]. now rewrite Hb.
Qed.

(** X18.  [CheckBlock] accepts a block exactly when the block is not
    empty, its transaction count and its serialised size are within the
    block size limit, its own hash meets its target, its timestamp is at
    most two hours ahead of the adjusted clock, its first transaction and
    no other is a coinbase, every transaction passes its own check, all
    transaction hashes are distinct, the signature operations (counted
    modulo [2^32]) are within their limit, and the Merkle root of the
    header is the one of the transactions. *)
Theorem CheckBlock_accepts_iff b nHeight state :
  accepted (check_block b nHeight state) = true <->
  (vtx b <> [] /\
  Z.of_nat (length (vtx b)) <= MAX_BLOCK_SIZE /\
  GetSerializeSize b <= MAX_BLOCK_SIZE /\
  fst (base_check (GetHash CAuxPow HashSkein (header b)) (nBits (header b)))
  = true /\
  nTime (header b) <= GetAdjustedTime + 2 * 60 * 60 /\
  IsCoinBase <$> head (vtx b) = Some true /\
  existsb IsCoinBase (drop 1 (vtx b)) = false /\
  fst (CheckTransactions CheckTransaction (vtx b) state) = true /\
  NoDup (map TxGetHash (vtx b)) /\
  count_sigops GetLegacySigOpCount (vtx b) <= MAX_BLOCK_SIGOPS /\
  hashMerkleRoot (header b) = fst (build b)).
Proof.
  split; [apply CheckBlock_accept_inv|].
  intros Hc. now rewrite (CheckBlock_accept_eq b nHeight state Hc).
Qed.

(** X19.  An accepted block costs no penalty and writes no message: the
    validation state is the one that the transaction checks left, the log
    is empty, and the block comes back with its Merkle tree cached.  A
    rejected block always leaves a message. *)
Theorem CheckBlock_outcome b nHeight state :
  (accepted (check_block b nHeight state) = true ->
   check_block b nHeight state
   = mkOutcome true (snd (CheckTransactions CheckTransaction (vtx b) state))
       [] (snd (build b))) /\
  (accepted (check_block b nHeight state) = false ->
   logged (check_block b nHeight state) <> []).
Proof.
  split.
  - intros Hacc. apply CheckBlock_accept_eq.
    now apply (CheckBlock_accept_inv b nHeight).
  - unfold CheckBlock.
    repeat match goal with
           | |- context [if ?c then _ else _] => destruct c
           | |- context [let '(_, _) := ?p in _] => destruct p
           end;
      cbn [accepted logged reject_DoS]; intros Hrej;
      try apply log_error_nonempty; discriminate.
Qed.

End CheckBlockFurther.

Lemma CheckBlock_accepts_iff_witness :
  accepted (demo_check_block odd_block 0 0) = true /\
  NoDup (map demo_tx_hash (vtx odd_block)) /\
  hashMerkleRoot (header odd_block)
  = fst (BuildMerkleTree demo_tx_hash demo_hash odd_block).
Proof.
  assert (Hacc : accepted (demo_check_block odd_block 0 0) = true)
    by (vm_compute; reflexivity).
  split; [exact Hacc|].
  apply (CheckBlock_accepts_iff demo_tx_hash demo_hash demo_SetCompact
           demo_limit demo_getuint256 demo_HashSkein demo_DoS 1000000 20000
           demo_serialize_size 1000 demo_is_coinbase demo_check_tx
           demo_sigops odd_block 0 0) in Hacc.
  destruct Hacc as (_ & _ & _ & _ & _ & _ & _ & _ & Hnd & _ & Hroot).
  split; [exact Hnd|exact Hroot].
Defined.

Lemma CheckBlock_outcome_witness :
  (accepted (demo_check_block odd_block 0 0) = true /\
   accepted (demo_check_block dup_block 0 0) = false) /\
  demo_check_block odd_block 0 0
  = mkOutcome true 0 []
      (snd (BuildMerkleTree demo_tx_hash demo_hash odd_block)) /\
  logged (demo_check_block dup_block 0 0) <> [].
Proof.
  assert (Hacc : accepted (demo_check_block odd_block 0 0) = true)
    by (vm_compute; reflexivity).
  assert (Hrej : accepted (demo_check_block dup_block 0 0) = false)
    by (vm_compute; reflexivity).
  split; [split; assumption|].
  destruct (CheckBlock_outcome demo_tx_hash demo_hash demo_SetCompact
              demo_limit demo_getuint256 demo_HashSkein demo_DoS 1000000 20000
              demo_serialize_size 1000 demo_is_coinbase demo_check_tx
              demo_sigops odd_block 0 0) as [Hok _].
  destruct (CheckBlock_outcome demo_tx_hash demo_hash demo_SetCompact
              demo_limit demo_getuint256 demo_HashSkein demo_DoS 1000000 20000
              demo_serialize_size 1000 demo_is_coinbase demo_check_tx
              demo_sigops dup_block 0 0) as [_ Hlog].
  split; [exact (Hok Hacc)|exact (Hlog Hrej)].
Defined.

Lemma header_check_logs_failures_witness :
  fst (demo_header_check false foreign_header 1000000) = false /\
  snd (demo_header_check false foreign_header 1000000) <> [].
Proof.
  split; [reflexivity|]. intros Hlog.
  apply (header_check_logs_failures false demo_SetCompact demo_limit
           demo_getuint256 demo_HashSkein demo_chain_id demo_our_chain
           demo_aux_check demo_parent_hash foreign_header 1000000) in Hlog.
  discriminate Hlog.
Defined.

Lemma CompressAmount_assertion_holds_witness :
  0 < 150000000 /\ CompressAmount_assertion 150000000 = true.
Proof.
  split; [lia|]. apply CompressAmount_assertion_holds. lia.
Defined.
